(** * Game.cpp: level generation, controls, motion, mesh index, drawing

    A shallow embedding of [src/Game.cpp] and the properties its
    specification states about it.

    - unsigned 32-bit values ([uint32_t], [glm::uvec2], [glm::uvec3]) are
      integers in [Z] with the wrap-around modulo [2^32] written out;
    - [float] is IEEE-754 binary32, through the executable specification
      of the standard library ([SpecFloat] at precision 24, [emax] 128);
    - [std::map<std::string, Mesh>] is a [gmap string Mesh];
    - [rand()] is a stream of draws that the generator consumes in order;
    - a frame of [draw] is the list of its [draw_mesh] calls, in order;
      what these hand to the graphics library is not computed;
    - [assert] stops the run when assertions are compiled in, and does
      nothing under [NDEBUG]; an integer division or remainder by zero is
      a fault of its own. *)

From Stdlib Require Import ZArith List Bool Lia Permutation.
From Stdlib Require Import Floats.SpecFloat Strings.Ascii.
From stdpp Require Import gmap strings list.

Local Open Scope Z_scope.

(* ===================================================================== *)
(** * Part I: the program *)
(* ===================================================================== *)

(** ** Unsigned 32-bit arithmetic *)

Module U32.
Definition modulus : Z := 2 ^ 32.
Definition wrap (n : Z) : Z := n mod modulus.
Definition add (a b : Z) : Z := wrap (a + b).
Definition sub (a b : Z) : Z := wrap (a - b).
Definition mul (a b : Z) : Z := wrap (a * b).
Definition in_range (n : Z) : Prop := 0 <= n < modulus.
End U32.

(** ** glm vectors of unsigned integers *)

Module uvec2.
Record t : Type := mk { x : Z; y : Z }.
(** [v[i]] for [i] in {0, 1}; the source indexes with a [bool]. *)
Definition index (v : t) (i : bool) : Z := if i then y v else x v.
End uvec2.

Module uvec3.
Record t : Type := mk { x : Z; y : Z; z : Z }.
End uvec3.

(** ** Outcomes of code that can stop *)

Inductive outcome (A : Type) : Type :=
| Done (a : A)
| AssertionFailed
| ArithmeticFault.
Arguments Done {A} a.
Arguments AssertionFailed {A}.
Arguments ArithmeticFault {A}.

(** ** The random source

    [rand()] returns an [int] between 0 and [RAND_MAX]; a source is the
    sequence of values the next calls return. *)

Definition rand_source : Type := nat -> Z.

Definition rand (rs : rand_source) : Z * rand_source :=
  (rs 0%nat, fun n => rs (S n)).

(** Every draw is a non-negative [int]. *)
Definition rand_ok (rs : rand_source) : Prop :=
  forall n, 0 <= rs n < 2 ^ 31.

(** ** The board and its edges *)

(** Modelled from the spec: the declaration of [Edge] is in Game.hpp,
    which is not part of the sources; the spec gives the two fields as
    booleans, and the constructor stores 0 or 1 in them. *)
Record Edge : Type := { is_column : bool; is_end : bool }.

(** The four [Edge] members of the game; a [const Edge *] of the source
    is one of these names. *)
Inductive EdgePtr : Type := top | bottom | left | right.

Definition deref (e : EdgePtr) : Edge :=
  match e with
  | top => {| is_column := false; is_end := false |}
  | bottom => {| is_column := false; is_end := true |}
  | left => {| is_column := true; is_end := false |}
  | right => {| is_column := true; is_end := true |}
  end.

Definition EdgePtr_eqb (a b : EdgePtr) : bool :=
  match a, b with
  | top, top | bottom, bottom | left, left | right, right => true
  | _, _ => false
  end.

(** Modelled from the spec: [key_locations] is declared in Game.hpp; the
    spec lists its four [uvec3] members in the order peanut, bread, jelly,
    serve, which is the order [generate_level] walks them in. *)
Record KeyLocations : Type := {
  peanut : uvec3.t;
  bread : uvec3.t;
  jelly : uvec3.t;
  serve : uvec3.t
}.

(** [*(itr + i) = location], with [itr] the address of [key_locations]
    seen as an array of [uvec3]; the loop only uses [i < 4]. *)
Definition store_key (i : nat) (location : uvec3.t) (k : KeyLocations)
  : KeyLocations :=
  match i with
  | 0%nat => {| peanut := location; bread := bread k;
                jelly := jelly k; serve := serve k |}
  | 1%nat => {| peanut := peanut k; bread := location;
                jelly := jelly k; serve := serve k |}
  | 2%nat => {| peanut := peanut k; bread := bread k;
                jelly := location; serve := serve k |}
  | 3%nat => {| peanut := peanut k; bread := bread k;
                jelly := jelly k; serve := location |}
  | _ => k
  end.

Definition key_at (i : nat) (k : KeyLocations) : uvec3.t :=
  match i with
  | 0%nat => peanut k
  | 1%nat => bread k
  | 2%nat => jelly k
  | _ => serve k
  end.

(** [Game::on_edge], also the condition of the assertion in
    [generate_level]. *)
Definition on_edge (board_size : uvec2.t) (x y : Z) : bool :=
  (x =? 0) || (x =? U32.sub (uvec2.x board_size) 1)
  || (y =? 0) || (y =? U32.sub (uvec2.y board_size) 1).

(** The body of the loop of [generate_level] after the edge is chosen:
    [r] is the value of the second [rand()] call, converted to
    [unsigned] for the remainder by [max - 2]. All the arithmetic is
    [uint32_t]. *)
Definition place_on_edge (assertions : bool) (board_size : uvec2.t)
    (edge : Edge) (r : Z) : outcome uvec3.t :=
  let max := uvec2.index board_size (negb (is_column edge)) in
  let span := U32.sub max 2 in
  if span =? 0 then ArithmeticFault else
  let placement := U32.add 1 (U32.wrap r mod span) in
  let increment := if is_column edge then uvec2.x board_size else 1 in
  let start :=
    U32.mul (Z.b2z (is_end edge))
      (if is_column edge
       then U32.sub (uvec2.x board_size) 1
       else U32.mul (uvec2.x board_size) (U32.sub (uvec2.y board_size) 1)) in
  let index := U32.add start (U32.mul placement increment) in
  if uvec2.x board_size =? 0 then ArithmeticFault else
  let x := index / uvec2.x board_size in
  let y := index mod uvec2.x board_size in
  if assertions && negb (on_edge board_size x y) then AssertionFailed else
  Done (uvec3.mk x y 0).

(** [remaining_edges.erase(edge)] on the set kept as a list in the order
    of the addresses. *)
Definition erase (e : EdgePtr) (s : list EdgePtr) : list EdgePtr :=
  List.filter (fun e' => negb (EdgePtr_eqb e e')) s.

(** The [for] loop of [generate_level]: [count] iterations are left and
    [i] is the loop counter. The first draw picks the edge at position
    [rand() % remaining_edges.size()] of the set (a draw is never
    negative, so its conversion to [size_t] keeps its value; a remainder
    below the size always finds an element), the second draw is handed to
    the body. *)
Fixpoint place_keys (assertions : bool) (board_size : uvec2.t)
    (count : nat) (i : nat) (remaining_edges : list EdgePtr)
    (key_locations : KeyLocations) (rs : rand_source)
  : outcome KeyLocations :=
  match count with
  | O => Done key_locations
  | S count' =>
      let (r1, rs1) := rand rs in
      let size := Z.of_nat (length remaining_edges) in
      if size =? 0 then ArithmeticFault else
      match remaining_edges !! Z.to_nat (r1 mod size) with
      | None => ArithmeticFault
      | Some edge =>
          let (r2, rs2) := rand rs1 in
          match place_on_edge assertions board_size (deref edge) r2 with
          | Done location =>
              place_keys assertions board_size count' (S i)
                (erase edge remaining_edges)
                (store_key i location key_locations) rs2
          | AssertionFailed => AssertionFailed
          | ArithmeticFault => ArithmeticFault
          end
      end
  end.

(** [Game::generate_level]. [edges] is the set built by the constructor
    from the addresses of the four [Edge] members, in the order of these
    addresses. *)
Definition generate_level (assertions : bool) (board_size : uvec2.t)
    (edges : list EdgePtr) (key_locations : KeyLocations)
    (rs : rand_source) : outcome KeyLocations :=
  place_keys assertions board_size 4 0 edges key_locations rs.

(** *** What the specification says about a generated level *)

(** The four sides of the outer ring of a board. *)
Inductive Side : Type := x_min | x_max | y_min | y_max.

Definition on_side (board_size : uvec2.t) (l : uvec3.t) (s : Side) : bool :=
  match s with
  | x_min => uvec3.x l =? 0
  | x_max => uvec3.x l =? uvec2.x board_size - 1
  | y_min => uvec3.y l =? 0
  | y_max => uvec3.y l =? uvec2.y board_size - 1
  end.

(** The sides a cell lies on: none for an inner cell, one for an edge
    cell that is not a corner, two for a corner. *)
Definition sides_of (board_size : uvec2.t) (l : uvec3.t) : list Side :=
  List.filter (on_side board_size l) [x_min; x_max; y_min; y_max].

Definition in_bounds (board_size : uvec2.t) (l : uvec3.t) : Prop :=
  0 <= uvec3.x l < uvec2.x board_size /\
  0 <= uvec3.y l < uvec2.y board_size.

(** Four keys on four different sides, none on a corner, all on the
    board. *)
Definition well_placed (board_size : uvec2.t) (k : KeyLocations) : Prop :=
  exists s0 s1 s2 s3,
    sides_of board_size (peanut k) = [s0] /\
    sides_of board_size (bread k) = [s1] /\
    sides_of board_size (jelly k) = [s2] /\
    sides_of board_size (serve k) = [s3] /\
    List.NoDup [s0; s1; s2; s3] /\
    in_bounds board_size (peanut k) /\
    in_bounds board_size (bread k) /\
    in_bounds board_size (jelly k) /\
    in_bounds board_size (serve k).

(** The cell that [generate_level] computes on a square board of side
    [w] for an edge and a placement [p] along it. *)
Definition cell (w : Z) (e : EdgePtr) (p : Z) : uvec3.t :=
  match e with
  | top => uvec3.mk 0 p 0
  | bottom => uvec3.mk (w - 1) p 0
  | left => uvec3.mk p 0 0
  | right => uvec3.mk p (w - 1) 0
  end.

(** The side of the board on which the cells of an edge lie. *)
Definition side_of_edge (e : EdgePtr) : Side :=
  match e with
  | top => x_min
  | bottom => x_max
  | left => y_min
  | right => y_max
  end.

Definition rand_zero : rand_source := fun _ => 0.
Definition origin : uvec3.t := uvec3.mk 0 0 0.
Definition no_keys : KeyLocations :=
  {| peanut := origin; bread := origin; jelly := origin; serve := origin |}.
Definition declared_edges : list EdgePtr := [top; bottom; left; right].


(** ** The mesh index

    The part of the constructor that turns the three chunks of the blob
    into the map from names to meshes, and the [lookup] that follows. *)

Module Catalog.

(** Modelled from the spec: [Mesh] is declared in Game.hpp; the spec
    gives it two unsigned fields. *)
Record Mesh : Type := { first : Z; count : Z }.

Record IndexEntry : Type := {
  name_begin : Z;
  name_end : Z;
  vertex_begin : Z;
  vertex_end : Z
}.

(** The four fields are [uint32_t]. *)
Definition u32_entry (e : IndexEntry) : Prop :=
  U32.in_range (name_begin e) /\ U32.in_range (name_end e) /\
  U32.in_range (vertex_begin e) /\ U32.in_range (vertex_end e).

Inductive load_error : Type :=
| invalid_name_indices
| invalid_vertex_indices
| duplicate_name
| mesh_not_found (name : string).

(** [std::string(names.begin() + e.name_begin, names.begin() + e.name_end)] *)
Definition entry_name (names : list ascii) (e : IndexEntry) : string :=
  String.string_of_list_ascii
    (take (Z.to_nat (name_end e - name_begin e))
          (drop (Z.to_nat (name_begin e)) names)).

Definition entry_mesh (e : IndexEntry) : Mesh :=
  {| first := vertex_begin e;
     count := U32.sub (vertex_end e) (vertex_begin e) |}.

(** The body of the loop over [index_entries]; [vertices_size] is
    [vertices.size()]. *)
Definition add_entry (names : list ascii) (vertices_size : Z)
    (index : gmap string Mesh) (e : IndexEntry)
  : load_error + gmap string Mesh :=
  if (name_begin e >? name_end e)
     || (name_end e >? Z.of_nat (length names))
  then inl invalid_name_indices
  else if (vertex_begin e >? vertex_end e)
          || (vertex_end e >? vertices_size)
  then inl invalid_vertex_indices
  else
    match index !! entry_name names e with
    | Some _ => inl duplicate_name
    | None => inr (<[entry_name names e := entry_mesh e]> index)
    end.

Fixpoint add_entries (names : list ascii) (vertices_size : Z)
    (index_entries : list IndexEntry) (index : gmap string Mesh)
  : load_error + gmap string Mesh :=
  match index_entries with
  | [] => inr index
  | e :: rest =>
      match add_entry names vertices_size index e with
      | inl err => inl err
      | inr index' => add_entries names vertices_size rest index'
      end
  end.

(** The index built from the chunks of the blob. *)
Definition load_index (names : list ascii) (vertices_size : Z)
    (index_entries : list IndexEntry) : load_error + gmap string Mesh :=
  add_entries names vertices_size index_entries ∅.

(** The [lookup] lambda. *)
Definition lookup (index : gmap string Mesh) (name : string)
  : load_error + Mesh :=
  match index !! name with
  | None => inl (mesh_not_found name)
  | Some mesh => inr mesh
  end.

Definition required_names : list string :=
  ["Avatar"; "Peanut"; "Bread"; "Jelly"; "Counter"; "Serve"; "Tile"]%string.

(** The seven mesh members that the constructor fills. *)
Record Meshes : Type := {
  avatar_mesh : Mesh;
  peanut_mesh : Mesh;
  bread_mesh : Mesh;
  jelly_mesh : Mesh;
  counter_mesh : Mesh;
  serve_mesh : Mesh;
  tile_mesh : Mesh
}.

(** An exception leaves the constructor at the first statement that
    throws. *)
Definition bind {A B : Type} (m : load_error + A) (k : A -> load_error + B)
  : load_error + B :=
  match m with
  | inl err => inl err
  | inr a => k a
  end.

Notation "'do' x <- m ; k" := (bind m (fun x => k))
  (at level 10, x name, m at level 100, k at level 200).

(** The mesh block of the constructor: the index, then the seven
    lookups in the order of the source. *)
Definition load_meshes (names : list ascii) (vertices_size : Z)
    (index_entries : list IndexEntry) : load_error + Meshes :=
  do index <- load_index names vertices_size index_entries;
  do avatar <- lookup index "Avatar";
  do peanut <- lookup index "Peanut";
  do bread <- lookup index "Bread";
  do jelly <- lookup index "Jelly";
  do counter <- lookup index "Counter";
  do serve <- lookup index "Serve";
  do tile <- lookup index "Tile";
  inr {| avatar_mesh := avatar; peanut_mesh := peanut; bread_mesh := bread;
         jelly_mesh := jelly; counter_mesh := counter; serve_mesh := serve;
         tile_mesh := tile |}.

(** An entry that the range checks of the loop reject. *)
Definition out_of_range (names : list ascii) (vertices_size : Z)
    (e : IndexEntry) : Prop :=
  name_begin e > name_end e \/ name_end e > Z.of_nat (length names) \/
  vertex_begin e > vertex_end e \/ vertex_end e > vertices_size.

(** Two entries at different positions of the index carry one name. *)
Definition name_repeated (names : list ascii)
    (index_entries : list IndexEntry) : Prop :=
  exists (i j : nat) (e1 e2 : IndexEntry),
    i <> j /\ index_entries !! i = Some e1 /\ index_entries !! j = Some e2 /\
    entry_name names e1 = entry_name names e2.

(** The characters of the name "Avatar", as a [str0] chunk. *)
Definition avatar_chars : list ascii := String.list_ascii_of_string "Avatar".

End Catalog.

(** ** Controls and key events *)

(** Modelled from the spec: the [controls] member is declared in
    Game.hpp; the source reads and writes its four boolean fields. *)
Record Controls : Type := {
  go_up : bool;
  go_down : bool;
  go_left : bool;
  go_right : bool
}.

(** The fields of [SDL_Event] that [handle_event] reads: the event type,
    and for a keyboard event the repeat counter and the scancode. *)
Record SDL_Event : Type := {
  type : Z;
  key_repeat : Z;
  key_keysym_scancode : Z
}.

(** Constants of the SDL2 headers. *)
Definition SDL_KEYDOWN : Z := 768.
Definition SDL_KEYUP : Z := 769.
Definition SDL_SCANCODE_A : Z := 4.
Definition SDL_SCANCODE_D : Z := 7.
Definition SDL_SCANCODE_S : Z := 22.
Definition SDL_SCANCODE_W : Z := 26.

(** [Game::handle_event]: the returned flag and the controls after the
    call. The window size is not used. *)
Definition handle_event (controls : Controls) (evt : SDL_Event)
  : bool * Controls :=
  if (type evt =? SDL_KEYDOWN) && negb (key_repeat evt =? 0) then
    (false, controls)
  else if (type evt =? SDL_KEYDOWN) || (type evt =? SDL_KEYUP) then
    let down := type evt =? SDL_KEYDOWN in
    if key_keysym_scancode evt =? SDL_SCANCODE_W then
      (true, {| go_up := down; go_down := go_down controls;
                go_left := go_left controls; go_right := go_right controls |})
    else if key_keysym_scancode evt =? SDL_SCANCODE_S then
      (true, {| go_up := go_up controls; go_down := down;
                go_left := go_left controls; go_right := go_right controls |})
    else if key_keysym_scancode evt =? SDL_SCANCODE_A then
      (true, {| go_up := go_up controls; go_down := go_down controls;
                go_left := down; go_right := go_right controls |})
    else if key_keysym_scancode evt =? SDL_SCANCODE_D then
      (true, {| go_up := go_up controls; go_down := go_down controls;
                go_left := go_left controls; go_right := down |})
    else (false, controls)
  else (false, controls).

(** The four directions, the key each is bound to, and the flag each
    owns. *)
Inductive Direction : Type := dir_up | dir_down | dir_left | dir_right.

Definition scancode_of (d : Direction) : Z :=
  match d with
  | dir_up => SDL_SCANCODE_W
  | dir_down => SDL_SCANCODE_S
  | dir_left => SDL_SCANCODE_A
  | dir_right => SDL_SCANCODE_D
  end.

Definition set_flag (d : Direction) (v : bool) (c : Controls) : Controls :=
  match d with
  | dir_up => {| go_up := v; go_down := go_down c;
                 go_left := go_left c; go_right := go_right c |}
  | dir_down => {| go_up := go_up c; go_down := v;
                   go_left := go_left c; go_right := go_right c |}
  | dir_left => {| go_up := go_up c; go_down := go_down c;
                   go_left := v; go_right := go_right c |}
  | dir_right => {| go_up := go_up c; go_down := go_down c;
                    go_left := go_left c; go_right := v |}
  end.

(** A key-down that is not an automatic repeat, on the key of [d]. *)
Definition key_pressed (evt : SDL_Event) (d : Direction) : Prop :=
  type evt = SDL_KEYDOWN /\ key_repeat evt = 0 /\
  key_keysym_scancode evt = scancode_of d.

(** A key-up on the key of [d]. *)
Definition key_released (evt : SDL_Event) (d : Direction) : Prop :=
  type evt = SDL_KEYUP /\ key_keysym_scancode evt = scancode_of d.

(** ** Single-precision floating point

    [float] is IEEE-754 binary32: 24 bits of precision, infinities at
    exponent 128, every operation rounded to nearest, ties to even. *)

Module F32.
Definition prec : Z := 24.
Definition emax : Z := 128.
Definition t : Type := spec_float.

Definition add : t -> t -> t := SFadd prec emax.
Definition sub : t -> t -> t := SFsub prec emax.
Definition mul : t -> t -> t := SFmul prec emax.
Definition div : t -> t -> t := SFdiv prec emax.
Definition opp : t -> t := SFopp.
Definition abs : t -> t := SFabs.
Definition ltb : t -> t -> bool := SFltb.
Definition leb : t -> t -> bool := SFleb.
Definition eqb : t -> t -> bool := SFeqb.

(** The conversion of an integer to [float]. *)
Definition of_Z (n : Z) : t := binary_normalize prec emax n 0 false.

Definition zero : t := S754_zero false.
Definition one : t := of_Z 1.
Definition two : t := of_Z 2.

(** [a <= b] as the comparison of the language decides it: false as soon
    as one side is not a number. *)
Definition le (a b : t) : Prop := leb a b = true.

Definition is_nan (a : t) : bool :=
  match a with S754_nan => true | _ => false end.

(** A zero or a finite number: neither an infinity nor a NaN. *)
Definition is_finite (a : t) : bool :=
  match a with S754_zero _ | S754_finite _ _ _ => true | _ => false end.

(** [std::max(a, b)] is [(a < b) ? b : a], and [std::min(a, b)] is
    [(b < a) ? b : a]. *)
Definition std_max (a b : t) : t := if ltb a b then b else a.
Definition std_min (a b : t) : t := if ltb b a then b else a.

(** glm documents [max(x, y)] as "y if x < y, otherwise x", [min(x, y)]
    as "y if y < x, otherwise x", and [clamp(x, minVal, maxVal)] as
    [min(max(x, minVal), maxVal)]. Releases of glm differ in what these
    return when an argument is not a number; the properties below are
    stated for numbers. *)
Definition glm_max (x y : t) : t := if ltb x y then y else x.
Definition glm_min (x y : t) : t := if ltb y x then y else x.
Definition glm_clamp (x minVal maxVal : t) : t :=
  glm_min (glm_max x minVal) maxVal.
End F32.

(** [glm::vec3] *)
Module vec3.
Record t : Type := mk { x : F32.t; y : F32.t; z : F32.t }.

Definition add (a b : t) : t :=
  mk (F32.add (x a) (x b)) (F32.add (y a) (y b)) (F32.add (z a) (z b)).

(** [s * v] for a scalar [s] *)
Definition scale (s : F32.t) (v : t) : t :=
  mk (F32.mul s (x v)) (F32.mul s (y v)) (F32.mul s (z v)).

(** [a != b]: some component differs. *)
Definition neqb (a b : t) : bool :=
  negb (F32.eqb (x a) (x b) && F32.eqb (y a) (y b) && F32.eqb (z a) (z b)).
End vec3.

(** Rotations. The source only ever stores four constant quaternions in
    [avatar_rotation]: the default-constructed one, [glm::quat()], and
    [glm::quat(glm::vec3(0.0f, 0.0f, glm::radians(d)))] for three angles
    [d] in degrees. They are kept as these constructors; their components
    are not computed. *)
Inductive quat : Type :=
| quat_default
| quat_euler_z (degrees : Z).

(** The angle about the z axis, in degrees, that a rotation stands for. *)
Definition facing_degrees (q : quat) : Z :=
  match q with
  | quat_default => 0
  | quat_euler_z d => d
  end.

(** ** The game state that [update] reads and writes *)

(** Modelled from the spec: the members are declared in Game.hpp, which
    is not part of the sources; the spec gives the avatar a position
    ([vec3]), a rotation (quaternion) and two velocity scalars, and the
    board a width and a height. [acceleration] and [max_velocity] are
    constants given in Game.hpp: here they are fields that no step
    changes, so every property holds for all their values. *)
Record Game : Type := {
  board_size : uvec2.t;
  controls : Controls;
  avatar_location : vec3.t;
  avatar_rotation : quat;
  x_velocity : F32.t;
  y_velocity : F32.t;
  acceleration : F32.t;
  max_velocity : F32.t
}.

Definition set_controls (c : Controls) (g : Game) : Game :=
  {| board_size := board_size g; controls := c;
     avatar_location := avatar_location g;
     avatar_rotation := avatar_rotation g;
     x_velocity := x_velocity g; y_velocity := y_velocity g;
     acceleration := acceleration g; max_velocity := max_velocity g |}.

Definition set_motion (xv yv : F32.t) (r : quat) (g : Game) : Game :=
  {| board_size := board_size g; controls := controls g;
     avatar_location := avatar_location g;
     avatar_rotation := r;
     x_velocity := xv; y_velocity := yv;
     acceleration := acceleration g; max_velocity := max_velocity g |}.

Definition set_avatar_location (l : vec3.t) (g : Game) : Game :=
  {| board_size := board_size g; controls := controls g;
     avatar_location := l;
     avatar_rotation := avatar_rotation g;
     x_velocity := x_velocity g; y_velocity := y_velocity g;
     acceleration := acceleration g; max_velocity := max_velocity g |}.

(** ** [Game::update], in the four steps of its body *)

(** The four [if (controls.go_...)] statements: each pressed direction
    changes a velocity by [elapsed * acceleration] and sets the rotation. *)
Definition accelerate (elapsed : F32.t) (g : Game) : Game :=
  let c := controls g in
  let d := F32.mul elapsed (acceleration g) in
  let xv := x_velocity g in
  let yv := y_velocity g in
  let r := avatar_rotation g in
  let xv := if go_left c then F32.sub xv d else xv in
  let r := if go_left c then quat_euler_z 180 else r in
  let xv := if go_right c then F32.add xv d else xv in
  let r := if go_right c then quat_default else r in
  let yv := if go_up c then F32.add yv d else yv in
  let r := if go_up c then quat_euler_z 90 else r in
  let yv := if go_down c then F32.sub yv d else yv in
  let r := if go_down c then quat_euler_z (-90) else r in
  set_motion xv yv r g.

(** The two statements that zero the velocity of an axis on which no key
    is held. *)
Definition stop_idle_axes (g : Game) : Game :=
  let c := controls g in
  let xv := if negb (go_left c) && negb (go_right c)
            then F32.zero else x_velocity g in
  let yv := if negb (go_up c) && negb (go_down c)
            then F32.zero else y_velocity g in
  set_motion xv yv (avatar_rotation g) g.

(** The two [glm::clamp] statements. *)
Definition clamp_velocity (g : Game) : Game :=
  let m := max_velocity g in
  set_motion (F32.glm_clamp (x_velocity g) (F32.opp m) m)
             (F32.glm_clamp (y_velocity g) (F32.opp m) m)
             (avatar_rotation g) g.

(** [mv], the displacement of one tick. *)
Definition displacement (g : Game) : vec3.t :=
  vec3.add (vec3.scale (x_velocity g) (vec3.mk F32.one F32.zero F32.zero))
           (vec3.scale (y_velocity g) (vec3.mk F32.zero F32.one F32.zero)).

(** The upper bounds [board_size.x - 2.0f] and [board_size.y - 2.0f] of
    the avatar position. *)
Definition x_limit (g : Game) : F32.t :=
  F32.sub (F32.of_Z (uvec2.x (board_size g))) F32.two.
Definition y_limit (g : Game) : F32.t :=
  F32.sub (F32.of_Z (uvec2.y (board_size g))) F32.two.

(** The final [if (mv != glm::vec3(0, 0, 0))] statement. *)
Definition move (g : Game) : Game :=
  let mv := displacement g in
  if vec3.neqb mv (vec3.mk F32.zero F32.zero F32.zero) then
    let l := vec3.add (avatar_location g) mv in
    let lx := F32.std_max F32.one (vec3.x l) in
    let lx := F32.std_min (x_limit g) lx in
    let ly := F32.std_max F32.one (vec3.y l) in
    let ly := F32.std_min (y_limit g) ly in
    set_avatar_location (vec3.mk lx ly (vec3.z l)) g
  else g.

Definition update (g : Game) (elapsed : F32.t) : Game :=
  move (clamp_velocity (stop_idle_axes (accelerate elapsed g))).

(** A tick of the frame loop: the events of the frame have set the
    controls, then [update] runs with the elapsed time. *)
Definition tick (g : Game) (input : Controls * F32.t) : Game :=
  update (set_controls (fst input) g) (snd input).

Definition run (g : Game) (inputs : list (Controls * F32.t)) : Game :=
  fold_left tick inputs g.

(** The avatar is inside the inner ring of the board. *)
Definition avatar_inside (g : Game) : Prop :=
  F32.le F32.one (vec3.x (avatar_location g)) /\
  F32.le (vec3.x (avatar_location g)) (x_limit g) /\
  F32.le F32.one (vec3.y (avatar_location g)) /\
  F32.le (vec3.y (avatar_location g)) (y_limit g).

(** The literals of the scenarios: [0.1f], [0.001f], [0.5f] and [5.0f],
    each the [float] nearest to the decimal. *)
Definition tenth : F32.t := F32.div (F32.of_Z 1) (F32.of_Z 10).
Definition thousandth : F32.t := F32.div (F32.of_Z 1) (F32.of_Z 1000).
Definition half : F32.t := F32.div (F32.of_Z 1) (F32.of_Z 2).
Definition five : F32.t := F32.of_Z 5.

Definition no_direction : Controls :=
  {| go_up := false; go_down := false; go_left := false; go_right := false |}.
Definition only_right : Controls := set_flag dir_right true no_direction.
Definition left_and_right : Controls := set_flag dir_left true only_right.

(** A game at rest on the 6 by 6 board, the avatar at (1, 1). *)
Definition at_rest (a m : F32.t) : Game :=
  {| board_size := uvec2.mk 6 6; controls := no_direction;
     avatar_location := vec3.mk F32.one F32.one F32.zero;
     avatar_rotation := quat_default;
     x_velocity := F32.zero; y_velocity := F32.zero;
     acceleration := a; max_velocity := m |}.

(** *** What the specification says about the position *)

(** The integer that a [float] is equal to, when it is one: the value of
    the finite [s m e] is [(-1)^s * m * 2^e]. *)
Definition to_integer (a : F32.t) : option Z :=
  match a with
  | S754_zero _ => Some 0
  | S754_finite s m e =>
      if 0 <=? e then Some (cond_Zopp s (Zpos m) * 2 ^ e)
      else if Zpos m mod 2 ^ (- e) =? 0
           then Some (cond_Zopp s (Zpos m / 2 ^ (- e)))
           else None
  | _ => None
  end.


(** The position is within [1, board_width - 2] x [1, board_height - 2]:
    each coordinate compares at least [1.0f], and at most the [float] of
    the integer [board_size - 2]. *)
Definition within_board (board_size : uvec2.t) (l : vec3.t) : Prop :=
  F32.le F32.one (vec3.x l) /\
  F32.le (vec3.x l) (F32.of_Z (uvec2.x board_size - 2)) /\
  F32.le F32.one (vec3.y l) /\
  F32.le (vec3.y l) (F32.of_Z (uvec2.y board_size - 2)).


(** A game at rest on a board of width 16777219 and height 3, the avatar
    at (16777216, 1). *)
Definition on_wide_board : Game :=
  {| board_size := uvec2.mk 16777219 3; controls := no_direction;
     avatar_location := vec3.mk (F32.of_Z 16777216) F32.one F32.zero;
     avatar_rotation := quat_default;
     x_velocity := F32.zero; y_velocity := F32.zero;
     acceleration := five; max_velocity := five |}.

(** ** [Game::draw]: the meshes drawn in a frame *)

(** [a != b] on [glm::uvec3]: some component differs. *)
Definition uvec3_neqb (a b : uvec3.t) : bool :=
  negb ((uvec3.x a =? uvec3.x b) && (uvec3.y a =? uvec3.y b)
        && (uvec3.z a =? uvec3.z b)).

(** [Game::not_occupied] *)
Definition not_occupied (key_locations : KeyLocations) (x y : Z) : bool :=
  let compare := uvec3.mk x y 0 in
  uvec3_neqb compare (peanut key_locations)
  && uvec3_neqb compare (bread key_locations)
  && uvec3_neqb compare (jelly key_locations)
  && uvec3_neqb compare (serve key_locations).

(** One call [draw_mesh(mesh, location_v3m4(v, r))] of [draw]: the mesh,
    whose range goes to [glDrawArrays(GL_TRIANGLES, mesh.first,
    mesh.count)], and the two arguments of [location_v3m4]. The matrices
    that the lambda uploads before the draw are functions of [v], [r] and
    the drawable size; they go to the graphics library and are not
    computed here. *)
Record DrawCall : Type := {
  drawn_mesh : Catalog.Mesh;
  drawn_at : vec3.t;
  drawn_rotation : quat
}.

(** The conversion [glm::vec3(glm::uvec3)], component by component. *)
Definition vec3_of_uvec3 (l : uvec3.t) : vec3.t :=
  vec3.mk (F32.of_Z (uvec3.x l)) (F32.of_Z (uvec3.y l))
          (F32.of_Z (uvec3.z l)).

(** The integer part of the board loop of [draw]: for every [i] below
    [board_size.x * board_size.y] (a [uint32_t] product), the cell
    [x = i / board_size.x], [y = i % board_size.y] and the value of
    [on_edge(x, y) && not_occupied(x, y)]. The bound is zero as soon as
    one of the two sizes is, so the loop never divides by zero. *)
Definition board_pass (board_size : uvec2.t) (key_locations : KeyLocations)
  : list (Z * Z * bool) :=
  map (fun i =>
         let x := i / uvec2.x board_size in
         let y := i mod uvec2.y board_size in
         (x, y, on_edge board_size x y && not_occupied key_locations x y))
      (seqZ 0 (U32.mul (uvec2.x board_size) (uvec2.y board_size))).

(** The body of the board loop: a tile under every cell, at height
    [-0.5f], and a counter on the cells that passed the test. *)
Definition draw_cell (meshes : Catalog.Meshes) (c : Z * Z * bool)
  : list DrawCall :=
  let '(x, y, counter) := c in
  {| drawn_mesh := Catalog.tile_mesh meshes;
     drawn_at := vec3.mk (F32.of_Z x) (F32.of_Z y) (F32.opp half);
     drawn_rotation := quat_default |}
  :: (if counter
      then [ {| drawn_mesh := Catalog.counter_mesh meshes;
                drawn_at := vec3.mk (F32.of_Z x) (F32.of_Z y) F32.zero;
                drawn_rotation := quat_default |} ]
      else []).

(** [Game::draw]: the draw calls of a frame, in order. *)
Definition draw (meshes : Catalog.Meshes) (key_locations : KeyLocations)
    (g : Game) : list DrawCall :=
  flat_map (draw_cell meshes) (board_pass (board_size g) key_locations)
  ++ [ {| drawn_mesh := Catalog.avatar_mesh meshes;
          drawn_at := avatar_location g;
          drawn_rotation := avatar_rotation g |};
       {| drawn_mesh := Catalog.peanut_mesh meshes;
          drawn_at := vec3_of_uvec3 (peanut key_locations);
          drawn_rotation := quat_default |};
       {| drawn_mesh := Catalog.bread_mesh meshes;
          drawn_at := vec3_of_uvec3 (bread key_locations);
          drawn_rotation := quat_default |};
       {| drawn_mesh := Catalog.jelly_mesh meshes;
          drawn_at := vec3_of_uvec3 (jelly key_locations);
          drawn_rotation := quat_default |};
       {| drawn_mesh := Catalog.serve_mesh meshes;
          drawn_at := vec3_of_uvec3 (serve key_locations);
          drawn_rotation := quat_default |} ].

(** The cells of a pass on which a counter is drawn. *)
Definition counter_cells (pass : list (Z * Z * bool)) : list (Z * Z) :=
  map fst (List.filter snd pass).

(** Four keys as [generate_level] leaves them on a square board of side
    [w]: each on the cell of its own edge, at a placement that is not a
    corner. *)
Definition keys_on_edges (w : Z) (k : KeyLocations) : Prop :=
  exists e0 e1 e2 e3 p0 p1 p2 p3,
    List.NoDup [e0; e1; e2; e3] /\
    1 <= p0 <= w - 2 /\ 1 <= p1 <= w - 2 /\
    1 <= p2 <= w - 2 /\ 1 <= p3 <= w - 2 /\
    peanut k = cell w e0 p0 /\ bread k = cell w e1 p1 /\
    jelly k = cell w e2 p2 /\ serve k = cell w e3 p3.

(** The cells of the outer ring of a square board of side [w]: the rows
    [x = 0] and [x = w - 1], then what is left of the columns [y = 0] and
    [y = w - 1]. *)
Definition ring_cells (w : Z) : list (Z * Z) :=
  map (fun y => (0, y)) (seqZ 0 w)
  ++ map (fun y => (w - 1, y)) (seqZ 0 w)
  ++ map (fun x => (x, 0)) (seqZ 1 (w - 2))
  ++ map (fun x => (x, w - 1)) (seqZ 1 (w - 2)).

(** The cells under the four keys. *)
Definition cell_xy (l : uvec3.t) : Z * Z := (uvec3.x l, uvec3.y l).
Definition key_cells (k : KeyLocations) : list (Z * Z) :=
  map cell_xy [peanut k; bread k; jelly k; serve k].

(** A blob for the examples: the seven required names packed one after
    the other in the name chunk, three vertices to each mesh. *)
Definition packed_names : list ascii :=
  String.list_ascii_of_string "AvatarPeanutBreadJellyCounterServeTile".
Definition packed_entry (nb ne vb : Z) : Catalog.IndexEntry :=
  {| Catalog.name_begin := nb; Catalog.name_end := ne;
     Catalog.vertex_begin := vb; Catalog.vertex_end := vb + 3 |}.
Definition packed_index : list Catalog.IndexEntry :=
  [ packed_entry 0 6 0; packed_entry 6 12 3; packed_entry 12 17 6;
    packed_entry 17 22 9; packed_entry 22 29 12; packed_entry 29 34 15;
    packed_entry 34 38 18 ].
Definition packed_mesh (vb : Z) : Catalog.Mesh :=
  {| Catalog.first := vb; Catalog.count := 3 |}.
Definition packed_meshes : Catalog.Meshes :=
  {| Catalog.avatar_mesh := packed_mesh 0;
     Catalog.peanut_mesh := packed_mesh 3;
     Catalog.bread_mesh := packed_mesh 6;
     Catalog.jelly_mesh := packed_mesh 9;
     Catalog.counter_mesh := packed_mesh 12;
     Catalog.serve_mesh := packed_mesh 15;
     Catalog.tile_mesh := packed_mesh 18 |}.

(** ** The events of a frame *)

(** The events that the frame loop polls are handed to [handle_event]
    one after the other. *)
Definition handle_events (controls : Controls) (evts : list SDL_Event)
  : Controls :=
  fold_left (fun c evt => snd (handle_event c evt)) evts controls.

Definition flag (d : Direction) (c : Controls) : bool :=
  match d with
  | dir_up => go_up c
  | dir_down => go_down c
  | dir_left => go_left c
  | dir_right => go_right c
  end.

(** A key-down that is not a repeat, or a key-up, on the key of [d]. *)
Definition acts_on (d : Direction) (evt : SDL_Event) : bool :=
  ((type evt =? SDL_KEYDOWN) && (key_repeat evt =? 0)
   || (type evt =? SDL_KEYUP))
  && (key_keysym_scancode evt =? scancode_of d).

Definition is_key_down (evt : SDL_Event) : bool := type evt =? SDL_KEYDOWN.

(* ===================================================================== *)
(** * Part II: properties *)
(* ===================================================================== *)

(** ** Level generation *)

Module LevelFacts.

Lemma wrap_small (n : Z) : 0 <= n < 2 ^ 32 -> U32.wrap n = n.
Proof. intros H. unfold U32.wrap, U32.modulus. apply Z.mod_small. exact H. Qed.

Lemma EdgePtr_eqb_eq (a b : EdgePtr) : EdgePtr_eqb a b = true <-> a = b.
Proof. destruct a, b; simpl; split; intros H; try reflexivity; discriminate. Qed.

Lemma in_erase (e e' : EdgePtr) (s : list EdgePtr) :
  In e' (erase e s) <-> In e' s /\ e' <> e.
Proof.
  unfold erase. rewrite filter_In, negb_true_iff.
  split; intros [H1 H2]; split; try assumption.
  - intros ->. rewrite (proj2 (EdgePtr_eqb_eq e e) eq_refl) in H2. discriminate.
  - destruct (EdgePtr_eqb e e') eqn:E; [|reflexivity].
    apply EdgePtr_eqb_eq in E. congruence.
Qed.

Lemma NoDup_erase (e : EdgePtr) (s : list EdgePtr) :
  List.NoDup s -> List.NoDup (erase e s).
Proof. intros H. unfold erase. apply List.NoDup_filter. exact H. Qed.

Lemma erase_absent (e : EdgePtr) (s : list EdgePtr) :
  ~ In e s -> erase e s = s.
Proof.
  induction s as [|a s IH]; intros H; [reflexivity|].
  unfold erase in *. simpl.
  destruct (EdgePtr_eqb e a) eqn:E.
  - apply EdgePtr_eqb_eq in E. subst. exfalso. apply H. now left.
  - simpl. f_equal. apply IH. intros Hin. apply H. now right.
Qed.

Lemma length_erase (e : EdgePtr) (s : list EdgePtr) :
  List.NoDup s -> In e s -> S (length (erase e s)) = length s.
Proof.
  induction s as [|a s IH]; intros Hnd Hin; [destruct Hin|].
  apply List.NoDup_cons_iff in Hnd. destruct Hnd as [Ha Hnd].
  change (erase e (a :: s))
    with (if negb (EdgePtr_eqb e a) then a :: erase e s else erase e s).
  destruct (EdgePtr_eqb e a) eqn:E; simpl.
  - apply EdgePtr_eqb_eq in E. subst a.
    rewrite erase_absent by exact Ha. reflexivity.
  - f_equal. apply IH; [exact Hnd|].
    destruct Hin as [->|Hin]; [|exact Hin].
    rewrite (proj2 (EdgePtr_eqb_eq e e) eq_refl) in E. discriminate.
Qed.


(** On a square board whose index arithmetic does not wrap, the body of
    the loop succeeds and yields the expected cell of the chosen edge. *)
Lemma place_on_edge_square (a : bool) (w : Z) (e : EdgePtr) (r : Z) :
  3 <= w <= 65536 -> 0 <= r < 2 ^ 31 ->
  place_on_edge a (uvec2.mk w w) (deref e) r
  = Done (cell w e (1 + r mod (w - 2))).
Proof.
  intros Hw Hr.
  assert (Hp : 0 <= r mod (w - 2) < w - 2) by (apply Z.mod_pos_bound; lia).
  set (p := 1 + r mod (w - 2)) in *.
  assert (Hp1 : 1 <= p <= w - 2) by (unfold p; lia).
  assert (Hspan : U32.sub w 2 = w - 2) by (apply wrap_small; lia).
  assert (Hr32 : U32.wrap r = r) by (apply wrap_small; lia).
  assert (Hpl : U32.add 1 (r mod (w - 2)) = p) by (apply wrap_small; lia).
  assert (Hw1 : U32.sub w 1 = w - 1) by (apply wrap_small; lia).
  assert (Hz : (w =? 0) = false) by (apply Z.eqb_neq; lia).
  assert (Hs0 : (w - 2 =? 0) = false) by (apply Z.eqb_neq; lia).
  assert (Hpw : p * w < 4294967296 - w) by nia.
  unfold place_on_edge, on_edge.
  destruct e; cbn [deref is_column is_end negb uvec2.index uvec2.x uvec2.y Z.b2z];
    rewrite Hspan, Hs0, Hr32, Hpl, Hz, ?Hw1.
  - (* top: index = p *)
    assert (Hi : U32.add (U32.mul 0 (U32.mul w (w - 1))) (U32.mul p 1) = p).
    { unfold U32.add, U32.mul. rewrite Z.mul_0_l, Z.mul_1_r.
      rewrite (wrap_small 0) by lia. rewrite (wrap_small p) by lia.
      apply wrap_small. lia. }
    rewrite Hi, Z.div_small, Z.mod_small by lia.
    cbn [cell]. rewrite Z.eqb_refl. simpl. rewrite andb_false_r. reflexivity.
  - (* bottom: index = w * (w - 1) + p *)
    assert (Hi : U32.add (U32.mul 1 (U32.mul w (w - 1))) (U32.mul p 1)
                 = (w - 1) * w + p).
    { unfold U32.add, U32.mul. rewrite Z.mul_1_l, Z.mul_1_r.
      rewrite (wrap_small (w * (w - 1))) by nia.
      rewrite (wrap_small (w * (w - 1))) by nia.
      rewrite (wrap_small p) by lia.
      rewrite wrap_small by nia. lia. }
    rewrite Hi, Z.div_add_l, Z.div_small by lia.
    rewrite (Z.add_comm ((w - 1) * w) p), Z.mod_add, Z.mod_small by lia.
    cbn [cell]. rewrite Z.add_0_r, Z.eqb_refl, orb_true_r. simpl.
    rewrite andb_false_r. reflexivity.
  - (* left: index = p * w *)
    assert (Hi : U32.add (U32.mul 0 (w - 1)) (U32.mul p w) = p * w).
    { unfold U32.add, U32.mul. rewrite Z.mul_0_l.
      rewrite (wrap_small 0) by lia. rewrite (wrap_small (p * w)) by nia.
      apply wrap_small. nia. }
    rewrite Hi, Z.div_mul, Z.mod_mul by lia.
    cbn [cell]. simpl. rewrite orb_true_r, andb_false_r. reflexivity.
  - (* right: index = w - 1 + p * w *)
    assert (Hi : U32.add (U32.mul 1 (w - 1)) (U32.mul p w) = w - 1 + p * w).
    { unfold U32.add, U32.mul. rewrite Z.mul_1_l.
      rewrite (wrap_small (w - 1)) by lia. rewrite (wrap_small (p * w)) by nia.
      apply wrap_small. nia. }
    rewrite Hi, Z.div_add, Z.mod_add, Z.div_small, Z.mod_small by lia.
    cbn [cell]. rewrite Z.add_0_l, Z.eqb_refl, orb_true_r.
    rewrite andb_false_r. reflexivity.
Qed.


(** A cell placed strictly inside an edge lies on that side only, and on
    the board. *)
Lemma sides_of_cell (w : Z) (e : EdgePtr) (p : Z) :
  3 <= w -> 1 <= p <= w - 2 ->
  sides_of (uvec2.mk w w) (cell w e p) = [side_of_edge e].
Proof.
  intros Hw Hp. unfold sides_of.
  destruct e; cbn [cell side_of_edge List.filter on_side
                   uvec3.x uvec3.y uvec2.x uvec2.y];
    repeat match goal with
      | |- context [?a =? ?b] =>
          first [ replace (a =? b) with true by (symmetry; apply Z.eqb_eq; lia)
                | replace (a =? b) with false by (symmetry; apply Z.eqb_neq; lia) ]
      end; reflexivity.
Qed.

Lemma in_bounds_cell (w : Z) (e : EdgePtr) (p : Z) :
  3 <= w -> 1 <= p <= w - 2 -> in_bounds (uvec2.mk w w) (cell w e p).
Proof.
  intros Hw Hp. unfold in_bounds.
  destruct e; cbn [cell uvec3.x uvec3.y uvec2.x uvec2.y]; lia.
Qed.

Lemma side_of_edge_inj (e1 e2 : EdgePtr) :
  side_of_edge e1 = side_of_edge e2 -> e1 = e2.
Proof. destruct e1, e2; simpl; intros H; try reflexivity; discriminate. Qed.

Lemma key_at_store_key (i : nat) (l : uvec3.t) (k : KeyLocations) :
  (i < 4)%nat -> key_at i (store_key i l k) = l.
Proof.
  intros H. do 4 (destruct i as [|i]; [reflexivity|]). lia.
Qed.

Lemma key_at_store_key_ne (i j : nat) (l : uvec3.t) (k : KeyLocations) :
  (j < i)%nat -> key_at j (store_key i l k) = key_at j k.
Proof.
  intros H.
  do 4 (destruct i as [|i];
        [ do 3 (destruct j as [|j]; [try reflexivity; lia|]); lia |]).
  reflexivity.
Qed.

(** The loop on a square board: it runs to its end, the edges it picks
    are distinct members of the set it started from, and slot [i + j]
    receives a cell of the [j]-th picked edge. Slots below [i] are left
    as they were. *)
Lemma place_keys_square (a : bool) (w : Z) (Hw : 3 <= w <= 65536) :
  forall (count i : nat) (remaining : list EdgePtr) (k : KeyLocations)
         (rs : rand_source),
    List.NoDup remaining -> (count <= length remaining)%nat ->
    (i + count <= 4)%nat -> rand_ok rs ->
    exists (k' : KeyLocations) (picks : list EdgePtr),
      place_keys a (uvec2.mk w w) count i remaining k rs = Done k' /\
      length picks = count /\ List.NoDup picks /\
      (forall e, In e picks -> In e remaining) /\
      (forall j e, nth_error picks j = Some e ->
         exists p, 1 <= p <= w - 2 /\ key_at (i + j) k' = cell w e p) /\
      (forall j, (j < i)%nat -> key_at j k' = key_at j k).
Proof.
  induction count as [|count IH]; intros i remaining k rs Hnd Hlen Hi Hrs.
  - exists k, []. simpl. repeat split; try constructor; try easy.
    intros [|j] e; discriminate.
  - cbn [place_keys rand].
    assert (Hsz : 0 < Z.of_nat (length remaining)) by lia.
    replace (Z.of_nat (length remaining) =? 0) with false
      by (symmetry; apply Z.eqb_neq; lia).
    pose proof (Hrs 0%nat) as Hr1. pose proof (Hrs 1%nat) as Hr2.
    pose proof (Z.mod_pos_bound (rs 0%nat) _ Hsz) as Hidx.
    destruct (lookup_lt_is_Some_2 remaining
                (Z.to_nat (rs 0%nat mod Z.of_nat (length remaining))))
      as [edge Hedge]; [lia|].
    rewrite Hedge.
    assert (Hin : In edge remaining).
    { apply list_elem_of_In. eapply list_elem_of_lookup_2. exact Hedge. }
    rewrite place_on_edge_square by (assumption || apply Hr2).
    set (p := 1 + rs 1%nat mod (w - 2)).
    assert (Hp : 1 <= p <= w - 2).
    { pose proof (Z.mod_pos_bound (rs 1%nat) (w - 2)). unfold p. lia. }
    pose proof (length_erase edge remaining Hnd Hin) as Hle.
    destruct (IH (S i) (erase edge remaining) (store_key i (cell w edge p) k)
                (fun n => rs (S (S n))))
      as (k' & picks & Hrun & Hlp & Hndp & Hsub & Hcells & Hkeep).
    + apply NoDup_erase. exact Hnd.
    + lia.
    + lia.
    + intros n. apply Hrs.
    + exists k', (edge :: picks). split; [exact Hrun|].
      split; [simpl; lia|]. split.
      { constructor; [|exact Hndp].
        intros Hc. apply Hsub, in_erase in Hc. destruct Hc as [_ Hc]. now apply Hc. }
      split.
      { intros e [<-|He]; [exact Hin|]. apply Hsub, in_erase in He. tauto. }
      split.
      { intros [|j] e Hj.
        - injection Hj as <-. exists p. split; [exact Hp|].
          rewrite Nat.add_0_r, Hkeep by lia. apply key_at_store_key. lia.
        - simpl in Hj. destruct (Hcells j e Hj) as (q & Hq & Hk).
          exists q. split; [exact Hq|]. rewrite <- Hk. f_equal. lia. }
      { intros j Hj. rewrite Hkeep by lia. apply key_at_store_key_ne. exact Hj. }
Qed.


(** When the loop runs to its end over a set of [count] edges, the body
    succeeded once for every edge of the set, on a draw of the source. *)
Lemma place_keys_done_any (a : bool) (b : uvec2.t) :
  forall (count i : nat) (remaining : list EdgePtr) (k k' : KeyLocations)
         (rs : rand_source),
    place_keys a b count i remaining k rs = Done k' ->
    List.NoDup remaining -> count = length remaining ->
    forall e, In e remaining ->
      exists n l, place_on_edge a b (deref e) (rs n) = Done l.
Proof.
  induction count as [|count IH];
    intros i remaining k k' rs Hrun Hnd Hlen e He.
  - destruct remaining; [destruct He | discriminate].
  - cbn [place_keys rand] in Hrun.
    destruct (Z.of_nat (length remaining) =? 0); [discriminate|].
    destruct (remaining !! _) as [edge|] eqn:Hedge; [|discriminate].
    destruct (place_on_edge a b (deref edge) (rs 1%nat)) as [l| |] eqn:Hpl;
      try discriminate.
    assert (Hin : In edge remaining).
    { apply list_elem_of_In. eapply list_elem_of_lookup_2. exact Hedge. }
    destruct (EdgePtr_eqb edge e) eqn:E.
    + apply EdgePtr_eqb_eq in E. subst e. eauto.
    + destruct (IH _ _ _ _ _ Hrun) with (e := e) as (n & l' & Hn).
      * apply NoDup_erase. exact Hnd.
      * pose proof (length_erase edge remaining Hnd Hin). lia.
      * apply in_erase. split; [exact He|]. intros ->.
        rewrite (proj2 (EdgePtr_eqb_eq edge edge) eq_refl) in E. discriminate.
      * exists (S (S n)), l'. exact Hn.
Qed.

(** Without assertions the only way to stop early is an arithmetic
    fault. *)
Lemma place_keys_ndebug (b : uvec2.t) :
  forall (count i : nat) (remaining : list EdgePtr) (k : KeyLocations)
         (rs : rand_source),
    place_keys false b count i remaining k rs <> AssertionFailed.
Proof.
  induction count as [|count IH]; intros i remaining k rs; [discriminate|].
  cbn [place_keys rand].
  destruct (Z.of_nat (length remaining) =? 0); [discriminate|].
  destruct (remaining !! _) as [edge|]; [|discriminate].
  destruct (place_on_edge false b (deref edge) (rs 1%nat)) as [l| |] eqn:Hpl;
    [apply IH | | discriminate].
  unfold place_on_edge in Hpl. cbn [andb] in Hpl.
  repeat match type of Hpl with
         | (if ?c then _ else _) = _ => destruct c; try discriminate
         end.
Qed.

(** An edge whose perpendicular extent is 2 makes the remainder by
    [max - 2] a remainder by zero. *)
Lemma place_on_edge_extent_two (a : bool) (b : uvec2.t) (e : EdgePtr) (r : Z) :
  uvec2.index b (negb (is_column (deref e))) = 2 ->
  place_on_edge a b (deref e) r = ArithmeticFault.
Proof. intros H. unfold place_on_edge. rewrite H. reflexivity. Qed.

Lemma declared_edges_perm (edges : list EdgePtr) :
  Permutation edges declared_edges ->
  List.NoDup edges /\ length edges = 4%nat /\ forall e, In e edges.
Proof.
  intros H. split; [|split].
  - eapply Permutation_NoDup; [symmetry; exact H|].
    repeat constructor; simpl; intuition discriminate.
  - apply Permutation_length in H. exact H.
  - intros e. eapply Permutation_in; [symmetry; exact H|].
    destruct e; simpl; tauto.
Qed.

(** C1, as amended: on every square board of side 3 to 65536, with any
    random source, any order of the edge set and assertions compiled in
    or not, [generate_level] runs to its end and puts the four keys on
    four different sides of the board, none on a corner, all in bounds. *)
Theorem generate_level_square_well_placed
    (a : bool) (w : Z) (edges : list EdgePtr) (k0 : KeyLocations)
    (rs : rand_source) :
  3 <= w <= 65536 -> Permutation edges declared_edges -> rand_ok rs ->
  exists k, generate_level a (uvec2.mk w w) edges k0 rs = Done k /\
            well_placed (uvec2.mk w w) k.
Proof.
  intros Hw Hperm Hrs.
  destruct (declared_edges_perm edges Hperm) as (Hnd & Hlen & _).
  destruct (place_keys_square a w Hw 4 0 edges k0 rs)
    as (k & picks & Hrun & Hlp & Hndp & _ & Hcells & _);
    [exact Hnd | lia | lia | exact Hrs |].
  exists k. split; [exact Hrun|].
  do 4 (destruct picks as [|? picks]; [discriminate|]).
  destruct picks; [|discriminate].
  destruct (Hcells 0%nat _ eq_refl) as (p0 & Hp0 & K0).
  destruct (Hcells 1%nat _ eq_refl) as (p1 & Hp1 & K1).
  destruct (Hcells 2%nat _ eq_refl) as (p2 & Hp2 & K2).
  destruct (Hcells 3%nat _ eq_refl) as (p3 & Hp3 & K3).
  cbn [key_at Nat.add] in K0, K1, K2, K3.
  exists (side_of_edge e), (side_of_edge e0), (side_of_edge e1), (side_of_edge e2).
  rewrite K0, K1, K2, K3.
  repeat split; try (apply sides_of_cell; lia);
    try (apply (in_bounds_cell w _ _ (proj1 Hw)); assumption).
  change (List.NoDup (List.map side_of_edge [e; e0; e1; e2])).
  apply Finite.Injective_map_NoDup; [|exact Hndp].
  intros x y. apply side_of_edge_inj.
Qed.

Lemma generate_level_square_well_placed_witness :
  exists k, generate_level true (uvec2.mk 6 6) declared_edges no_keys rand_zero
            = Done k /\ well_placed (uvec2.mk 6 6) k.
Proof.
  apply (generate_level_square_well_placed true 6 declared_edges no_keys rand_zero).
  - lia.
  - reflexivity.
  - intros n. unfold rand_zero. lia.
Defined.

(** C1, as stated, fails in two ways, shown here with every draw equal
    to 0 (each edge is then placed at offset 1, in the order top, bottom,
    left, right).

    On the square board of side 65537 the 32-bit arithmetic wraps: for
    the bottom edge [start = 65537 * 65536] is [2^32 + 65536], stored as
    65536, so [index = 65537], [x = 1], [y = 0], which passes the
    assertion; the left edge has [index = 1 * 65537] as well. The run
    completes with the bread and the jelly on one and the same cell.

    On the 4 by 3 board the bottom edge has [index = 4 * 2 + 1 = 9],
    [x = 2], [y = 1], an inner cell: the assertion fails. Without
    assertions the run goes on and the right edge has
    [index = 3 + 1 * 4 = 7], [x = 1], [y = 3], outside the board. *)
Lemma generate_level_counterexample :
  rand_ok rand_zero /\
  (exists k,
     generate_level true (uvec2.mk 65537 65537) declared_edges no_keys rand_zero
     = Done k /\
     bread k = uvec3.mk 1 0 0 /\ jelly k = uvec3.mk 1 0 0 /\
     sides_of (uvec2.mk 65537 65537) (bread k) = [y_min] /\
     sides_of (uvec2.mk 65537 65537) (jelly k) = [y_min]) /\
  generate_level true (uvec2.mk 4 3) declared_edges no_keys rand_zero
  = AssertionFailed /\
  (exists k,
     generate_level false (uvec2.mk 4 3) declared_edges no_keys rand_zero
     = Done k /\
     sides_of (uvec2.mk 4 3) (bread k) = [] /\
     serve k = uvec3.mk 1 3 0 /\
     3 <= uvec3.y (serve k)).
Proof.
  split; [intros n; unfold rand_zero; lia|].
  split.
  { eexists. split; [vm_compute; reflexivity|].
    repeat split; vm_compute; reflexivity. }
  split; [vm_compute; reflexivity|].
  eexists. split; [vm_compute; reflexivity|].
  split; [vm_compute; reflexivity|]. split; [reflexivity|].
  simpl. lia.
Qed.

(** A board of width 0 makes the division by [board_size.x] a division
    by zero, on every edge. *)
Lemma place_on_edge_width_zero (a : bool) (b : uvec2.t) (e : Edge) (r : Z) :
  uvec2.x b = 0 -> place_on_edge a b e r = ArithmeticFault.
Proof.
  intros H. unfold place_on_edge. rewrite H.
  destruct (U32.sub _ 2 =? 0); reflexivity.
Qed.

(** C9, as amended: when a dimension of the board is 2, or its width is
    0, [generate_level] never completes, whatever the random source; it
    stops at the assertion or at a division or remainder by zero, and at
    the latter when assertions are compiled out. *)
Theorem generate_level_extent_two
    (a : bool) (b : uvec2.t) (edges : list EdgePtr) (k0 : KeyLocations)
    (rs : rand_source) :
  uvec2.x b = 2 \/ uvec2.y b = 2 \/ uvec2.x b = 0 ->
  Permutation edges declared_edges ->
  (generate_level a b edges k0 rs = AssertionFailed \/
   generate_level a b edges k0 rs = ArithmeticFault) /\
  (a = false -> generate_level a b edges k0 rs = ArithmeticFault).
Proof.
  intros Hb Hperm.
  destruct (declared_edges_perm edges Hperm) as (Hnd & Hlen & Hall).
  assert (Hnot : forall k, generate_level a b edges k0 rs <> Done k).
  { intros k Hrun. unfold generate_level in Hrun.
    assert (Hinv := place_keys_done_any a b 4 0 edges k0 k rs Hrun Hnd
                      (eq_sym Hlen)).
    destruct Hb as [Hx|[Hy|H0]].
    - destruct (Hinv left (Hall left)) as (r & l & Hpl).
      rewrite place_on_edge_extent_two in Hpl by exact Hx. discriminate.
    - destruct (Hinv top (Hall top)) as (r & l & Hpl).
      rewrite place_on_edge_extent_two in Hpl by exact Hy. discriminate.
    - destruct (Hinv top (Hall top)) as (r & l & Hpl).
      rewrite place_on_edge_width_zero in Hpl by exact H0. discriminate. }
  destruct (generate_level a b edges k0 rs) as [k| |] eqn:Hrun.
  - exfalso. exact (Hnot k eq_refl).
  - split; [now left|]. intros ->. exfalso.
    exact (place_keys_ndebug b 4 0 edges k0 rs Hrun).
  - split; [now right|]. reflexivity.
Qed.

Lemma generate_level_extent_two_witness :
  (generate_level true (uvec2.mk 2 3) declared_edges no_keys rand_zero
   = AssertionFailed \/
   generate_level true (uvec2.mk 2 3) declared_edges no_keys rand_zero
   = ArithmeticFault) /\
  (true = false ->
   generate_level true (uvec2.mk 2 3) declared_edges no_keys rand_zero
   = ArithmeticFault).
Proof.
  apply (generate_level_extent_two true (uvec2.mk 2 3) declared_edges no_keys
           rand_zero).
  - left. reflexivity.
  - reflexivity.
Defined.

(** C9, as stated, fails on the 1 by 1 board: both extents are below 3,
    yet the run completes (the assertion holds because every remainder by
    1 is 0) and all four keys land outside the board. *)
Lemma generate_level_tiny_board_counterexample :
  uvec2.x (uvec2.mk 1 1) < 3 /\ uvec2.y (uvec2.mk 1 1) < 3 /\
  generate_level true (uvec2.mk 1 1) declared_edges no_keys rand_zero
  = Done {| peanut := uvec3.mk 1 0 0; bread := uvec3.mk 1 0 0;
            jelly := uvec3.mk 1 0 0; serve := uvec3.mk 1 0 0 |} /\
  ~ in_bounds (uvec2.mk 1 1) (uvec3.mk 1 0 0).
Proof.
  split; [simpl; lia|]. split; [simpl; lia|].
  split; [vm_compute; reflexivity|].
  unfold in_bounds. simpl. lia.
Qed.


(** On the 6 by 6 board of the game every run places the four keys at
    offsets 1 to 4 along four different edges. *)
Theorem generate_level_six_by_six
    (a : bool) (edges : list EdgePtr) (k0 : KeyLocations) (rs : rand_source) :
  Permutation edges declared_edges -> rand_ok rs ->
  exists k e0 e1 e2 e3 p0 p1 p2 p3,
    generate_level a (uvec2.mk 6 6) edges k0 rs = Done k /\
    List.NoDup [e0; e1; e2; e3] /\
    1 <= p0 <= 4 /\ 1 <= p1 <= 4 /\ 1 <= p2 <= 4 /\ 1 <= p3 <= 4 /\
    peanut k = cell 6 e0 p0 /\ bread k = cell 6 e1 p1 /\
    jelly k = cell 6 e2 p2 /\ serve k = cell 6 e3 p3.
Proof.
  intros Hperm Hrs.
  destruct (declared_edges_perm edges Hperm) as (Hnd & Hlen & _).
  destruct (place_keys_square a 6 ltac:(lia) 4 0 edges k0 rs)
    as (k & picks & Hrun & Hlp & Hndp & _ & Hcells & _);
    [exact Hnd | lia | lia | exact Hrs |].
  do 4 (destruct picks as [|? picks]; [discriminate|]).
  destruct picks; [|discriminate].
  destruct (Hcells 0%nat _ eq_refl) as (p0 & Hp0 & K0).
  destruct (Hcells 1%nat _ eq_refl) as (p1 & Hp1 & K1).
  destruct (Hcells 2%nat _ eq_refl) as (p2 & Hp2 & K2).
  destruct (Hcells 3%nat _ eq_refl) as (p3 & Hp3 & K3).
  cbn [key_at Nat.add] in K0, K1, K2, K3.
  exists k, e, e0, e1, e2, p0, p1, p2, p3.
  repeat split; try assumption; lia.
Qed.

Lemma generate_level_six_by_six_witness :
  exists k e0 e1 e2 e3 p0 p1 p2 p3,
    generate_level true (uvec2.mk 6 6) declared_edges no_keys rand_zero
    = Done k /\
    List.NoDup [e0; e1; e2; e3] /\
    1 <= p0 <= 4 /\ 1 <= p1 <= 4 /\ 1 <= p2 <= 4 /\ 1 <= p3 <= 4 /\
    peanut k = cell 6 e0 p0 /\ bread k = cell 6 e1 p1 /\
    jelly k = cell 6 e2 p2 /\ serve k = cell 6 e3 p3.
Proof.
  apply (generate_level_six_by_six true declared_edges no_keys rand_zero).
  - reflexivity.
  - intros n. unfold rand_zero. lia.
Defined.

(** On a board that is not square the cell computed for the right edge
    is never on the outer ring, so the assertion fails there. *)
Lemma place_on_right_edge_rectangle (w h r : Z) :
  3 <= w <= 65536 -> 3 <= h < 2 ^ 32 -> w <> h -> 0 <= r < 2 ^ 31 ->
  place_on_edge true (uvec2.mk w h) (deref right) r = AssertionFailed.
Proof.
  intros Hw Hh Hne Hr.
  assert (Hp : 0 <= r mod (w - 2) < w - 2) by (apply Z.mod_pos_bound; lia).
  set (p := 1 + r mod (w - 2)) in *.
  assert (Hspan : U32.sub w 2 = w - 2) by (apply wrap_small; lia).
  assert (Hr32 : U32.wrap r = r) by (apply wrap_small; lia).
  assert (Hpl : U32.add 1 (r mod (w - 2)) = p) by (apply wrap_small; lia).
  assert (Hw1 : U32.sub w 1 = w - 1) by (apply wrap_small; lia).
  assert (Hh1 : U32.sub h 1 = h - 1) by (apply wrap_small; lia).
  assert (Hz : (w =? 0) = false) by (apply Z.eqb_neq; lia).
  assert (Hs0 : (w - 2 =? 0) = false) by (apply Z.eqb_neq; lia).
  assert (Hpw : p * w < 4294967296 - w) by nia.
  assert (Hi : U32.add (U32.mul 1 (w - 1)) (U32.mul p w) = w - 1 + p * w).
  { unfold U32.add, U32.mul. rewrite Z.mul_1_l.
    rewrite (wrap_small (w - 1)) by lia. rewrite (wrap_small (p * w)) by nia.
    apply wrap_small. nia. }
  unfold place_on_edge, on_edge.
  cbn [deref is_column is_end negb uvec2.index uvec2.x uvec2.y Z.b2z].
  rewrite Hspan, Hs0, Hr32, Hpl, Hz, Hw1, Hh1, Hi.
  rewrite Z.div_add, Z.mod_add, Z.div_small, Z.mod_small by lia.
  rewrite Z.add_0_l.
  replace (p =? 0) with false by (symmetry; apply Z.eqb_neq; lia).
  replace (p =? w - 1) with false by (symmetry; apply Z.eqb_neq; lia).
  replace (w - 1 =? 0) with false by (symmetry; apply Z.eqb_neq; lia).
  replace (w - 1 =? h - 1) with false by (symmetry; apply Z.eqb_neq; lia).
  reflexivity.
Qed.

(** With both dimensions at least 3 no step of the body divides by
    zero. *)
Lemma place_on_edge_no_fault (a : bool) (w h : Z) (e : EdgePtr) (r : Z) :
  3 <= w < 2 ^ 32 -> 3 <= h < 2 ^ 32 ->
  place_on_edge a (uvec2.mk w h) (deref e) r <> ArithmeticFault.
Proof.
  intros Hw Hh. unfold place_on_edge.
  assert (Hsw : (U32.sub w 2 =? 0) = false).
  { apply Z.eqb_neq. unfold U32.sub. rewrite wrap_small; lia. }
  assert (Hsh : (U32.sub h 2 =? 0) = false).
  { apply Z.eqb_neq. unfold U32.sub. rewrite wrap_small; lia. }
  assert (Hz : (w =? 0) = false) by (apply Z.eqb_neq; lia).
  destruct e; cbn [deref is_column is_end negb uvec2.index uvec2.x uvec2.y];
    rewrite ?Hsw, ?Hsh, Hz;
    match goal with |- context [if ?c then _ else _] => destruct c end;
    discriminate.
Qed.

Lemma place_keys_no_fault (a : bool) (w h : Z) :
  3 <= w < 2 ^ 32 -> 3 <= h < 2 ^ 32 ->
  forall (count i : nat) (remaining : list EdgePtr) (k : KeyLocations)
         (rs : rand_source),
    List.NoDup remaining -> (count <= length remaining)%nat -> rand_ok rs ->
    place_keys a (uvec2.mk w h) count i remaining k rs <> ArithmeticFault.
Proof.
  intros Hw Hh.
  induction count as [|count IH]; intros i remaining k rs Hnd Hlen Hrs;
    [discriminate|].
  cbn [place_keys rand].
  assert (Hsz : 0 < Z.of_nat (length remaining)) by lia.
  replace (Z.of_nat (length remaining) =? 0) with false
    by (symmetry; apply Z.eqb_neq; lia).
  pose proof (Hrs 0%nat) as Hr1.
  pose proof (Z.mod_pos_bound (rs 0%nat) _ Hsz) as Hidx.
  destruct (lookup_lt_is_Some_2 remaining
              (Z.to_nat (rs 0%nat mod Z.of_nat (length remaining))))
    as [edge Hedge]; [lia|].
  rewrite Hedge.
  assert (Hin : In edge remaining).
  { apply list_elem_of_In. eapply list_elem_of_lookup_2. exact Hedge. }
  pose proof (place_on_edge_no_fault a w h edge (rs 1%nat) Hw Hh) as Hnf.
  destruct (place_on_edge a (uvec2.mk w h) (deref edge) (rs 1%nat))
    as [l| |]; [|discriminate|contradiction].
  apply IH.
  - apply NoDup_erase. exact Hnd.
  - pose proof (length_erase edge remaining Hnd Hin). lia.
  - intros n. apply Hrs.
Qed.

(** With assertions compiled in, [generate_level] stops at the assertion
    on every board that is not square (of width up to 65536, where the
    index of the right edge does not wrap). *)
Theorem generate_level_rectangle_stops
    (w h : Z) (edges : list EdgePtr) (k0 : KeyLocations) (rs : rand_source) :
  3 <= w <= 65536 -> 3 <= h < 2 ^ 32 -> w <> h ->
  Permutation edges declared_edges -> rand_ok rs ->
  generate_level true (uvec2.mk w h) edges k0 rs = AssertionFailed.
Proof.
  intros Hw Hh Hne Hperm Hrs.
  destruct (declared_edges_perm edges Hperm) as (Hnd & Hlen & Hall).
  unfold generate_level.
  pose proof (place_keys_no_fault true w h ltac:(lia) Hh 4 0 edges k0 rs Hnd
                ltac:(lia) Hrs) as Hnf.
  destruct (place_keys true (uvec2.mk w h) 4 0 edges k0 rs) as [k| |] eqn:Hrun;
    [exfalso | reflexivity | contradiction].
  destruct (place_keys_done_any true (uvec2.mk w h) 4 0 edges k0 k rs Hrun Hnd
              (eq_sym Hlen) right (Hall right)) as (n & l & Hpl).
  rewrite place_on_right_edge_rectangle in Hpl; try assumption.
  - discriminate.
  - apply Hrs.
Qed.

Lemma generate_level_rectangle_stops_witness :
  generate_level true (uvec2.mk 4 3) declared_edges no_keys rand_zero
  = AssertionFailed.
Proof.
  apply (generate_level_rectangle_stops 4 3 declared_edges no_keys rand_zero).
  - lia.
  - lia.
  - lia.
  - reflexivity.
  - intros n. unfold rand_zero. lia.
Defined.

End LevelFacts.

(** ** The mesh index *)

Module CatalogFacts.
Import Catalog.

Section Load.
Variable names : list ascii.
Variable vertices_size : Z.

Local Abbreviation name_of := (entry_name names).

Lemma add_entry_inr (index index' : gmap string Mesh) (e : IndexEntry) :
  add_entry names vertices_size index e = inr index' ->
  ~ out_of_range names vertices_size e /\
  index !! name_of e = None /\
  index' = <[name_of e := entry_mesh e]> index.
Proof.
  unfold add_entry, out_of_range.
  destruct (name_begin e >? name_end e) eqn:E1; [discriminate|].
  destruct (name_end e >? Z.of_nat (length names)) eqn:E2; [discriminate|].
  destruct (vertex_begin e >? vertex_end e) eqn:E3; [discriminate|].
  destruct (vertex_end e >? vertices_size) eqn:E4; [discriminate|].
  cbn [orb]. destruct (index !! name_of e) eqn:L; [discriminate|].
  intros [= <-]. repeat split; lia.
Qed.

Lemma add_entry_inl (index : gmap string Mesh) (e : IndexEntry)
    (err : load_error) :
  add_entry names vertices_size index e = inl err ->
  out_of_range names vertices_size e \/ is_Some (index !! name_of e).
Proof.
  unfold add_entry, out_of_range.
  destruct (name_begin e >? name_end e) eqn:E1; [intros _; left; lia|].
  destruct (name_end e >? Z.of_nat (length names)) eqn:E2;
    [intros _; left; lia|].
  destruct (vertex_begin e >? vertex_end e) eqn:E3; [intros _; left; lia|].
  destruct (vertex_end e >? vertices_size) eqn:E4; [intros _; left; lia|].
  cbn [orb]. destruct (index !! name_of e) eqn:L; [|discriminate].
  intros _. right. eauto.
Qed.

(** What a successful run of the loop tells about the entries and about
    the map it returns. *)
Lemma add_entries_inr :
  forall (es : list IndexEntry) (index0 index : gmap string Mesh),
    add_entries names vertices_size es index0 = inr index ->
    Forall (fun e => ~ out_of_range names vertices_size e) es /\
    (forall i e, es !! i = Some e -> index0 !! name_of e = None) /\
    (forall i j e1 e2, es !! i = Some e1 -> es !! j = Some e2 ->
       name_of e1 = name_of e2 -> i = j) /\
    (forall e, In e es -> index !! name_of e = Some (entry_mesh e)) /\
    (forall n m, index0 !! n = Some m -> index !! n = Some m) /\
    (forall n m, index !! n = Some m ->
       index0 !! n = Some m \/
       exists e, In e es /\ name_of e = n /\ m = entry_mesh e).
Proof.
  induction es as [|e rest IH]; intros index0 index Hrun.
  - injection Hrun as <-.
    repeat split; try easy; try (intros n m H; now left).
  - cbn [add_entries] in Hrun.
    destruct (add_entry names vertices_size index0 e) as [err|index1] eqn:Hadd;
      [discriminate|].
    apply add_entry_inr in Hadd. destruct Hadd as (Hgood & Hfresh & ->).
    destruct (IH _ _ Hrun) as (Hall & Hnew & Huniq & Hfound & Hkeep & Hfrom).
    assert (Hrest : forall i e', rest !! i = Some e' ->
              index0 !! name_of e' = None /\ name_of e <> name_of e').
    { intros i e' Hi. apply Hnew in Hi.
      apply lookup_insert_None in Hi. exact Hi. }
    repeat split.
    + constructor; assumption.
    + intros [|i] e' Hi; simpl in Hi.
      * injection Hi as <-. exact Hfresh.
      * apply (Hrest i e' Hi).
    + intros [|i] [|j] e1 e2 H1 H2 Hn; simpl in H1, H2.
      * reflexivity.
      * injection H1 as <-. destruct (Hrest j e2 H2) as [_ Hne]. contradiction.
      * injection H2 as <-. destruct (Hrest i e1 H1) as [_ Hne].
        symmetry in Hn. contradiction.
      * f_equal. eapply Huniq; eassumption.
    + intros e' [<-|Hin].
      * apply Hkeep. apply lookup_insert_eq.
      * apply Hfound. exact Hin.
    + intros n m Hn. apply Hkeep.
      rewrite lookup_insert_ne; [exact Hn|]. intros <-. congruence.
    + intros n m Hn. destruct (Hfrom n m Hn) as [H1|(e' & Hin & Hname & Hm)].
      * apply lookup_insert_Some in H1.
        destruct H1 as [[<- <-]|[_ H1]]; [|now left].
        right. exists e. repeat split. now left.
      * right. exists e'. repeat split; try assumption. now right.
Qed.

(** What a failed run tells: an entry is out of range, or a name comes
    twice, or a name was already in the map the loop started with. *)
Lemma add_entries_inl :
  forall (es : list IndexEntry) (index0 : gmap string Mesh)
         (err : load_error),
    add_entries names vertices_size es index0 = inl err ->
    Exists (out_of_range names vertices_size) es \/
    name_repeated names es \/
    exists i e, es !! i = Some e /\ is_Some (index0 !! name_of e).
Proof.
  induction es as [|e rest IH]; intros index0 err Hrun; [discriminate|].
  cbn [add_entries] in Hrun.
  destruct (add_entry names vertices_size index0 e) as [err'|index1] eqn:Hadd.
  - apply add_entry_inl in Hadd. destruct Hadd as [Hbad|Hdup].
    + left. now constructor.
    + right. right. exists 0%nat, e. split; [reflexivity | exact Hdup].
  - apply add_entry_inr in Hadd. destruct Hadd as (_ & _ & ->).
    destruct (IH _ _ Hrun) as [Hbad|[Hrep|(i & e' & Hi & Hsome)]].
    + left. now apply Exists_cons_tl.
    + right. left. destruct Hrep as (i & j & e1 & e2 & Hij & H1 & H2 & Hn).
      exists (S i), (S j), e1, e2. repeat split; try assumption. lia.
    + destruct (decide (name_of e = name_of e')) as [Heq|Hne].
      * right. left. exists 0%nat, (S i), e, e'.
        repeat split; try assumption. lia.
      * right. right. exists (S i), e'. split; [exact Hi|].
        rewrite lookup_insert_ne in Hsome by exact Hne. exact Hsome.
Qed.

End Load.

Lemma entry_mesh_count (e : IndexEntry) :
  u32_entry e -> vertex_begin e <= vertex_end e ->
  count (entry_mesh e) = vertex_end e - vertex_begin e.
Proof.
  intros (_ & _ & Hb & He) Hle. unfold entry_mesh, U32.sub. cbn [count].
  apply LevelFacts.wrap_small. unfold U32.in_range, U32.modulus in *. lia.
Qed.

Lemma add_entries_error_kind (names : list ascii) (vertices_size : Z) :
  forall (es : list IndexEntry) (index0 : gmap string Mesh) (err : load_error),
    add_entries names vertices_size es index0 = inl err ->
    err = invalid_name_indices \/ err = invalid_vertex_indices \/
    err = duplicate_name.
Proof.
  induction es as [|e rest IH]; intros index0 err Hrun; [discriminate|].
  cbn [add_entries] in Hrun.
  destruct (add_entry names vertices_size index0 e) as [err'|index1] eqn:Hadd.
  - injection Hrun as <-. unfold add_entry in Hadd.
    repeat match type of Hadd with
           | (if ?c then _ else _) = _ => destruct c
           | match ?o with Some _ => _ | None => _ end = _ => destruct o
           end; try discriminate; injection Hadd as <-; tauto.
  - eapply IH. exact Hrun.
Qed.

(** C7: the index load fails exactly when an entry is out of range or two
    entries carry one name, and then with one of the three format errors;
    when it succeeds, every entry's name maps to the mesh with
    [first = vertex_begin] and [count = vertex_end - vertex_begin]. *)
Theorem load_index_fails_iff
    (names : list ascii) (vertices_size : Z) (index_entries : list IndexEntry) :
  Forall u32_entry index_entries ->
  ((exists err, load_index names vertices_size index_entries = inl err) <->
   (Exists (out_of_range names vertices_size) index_entries \/
    name_repeated names index_entries)) /\
  (forall err, load_index names vertices_size index_entries = inl err ->
     err = invalid_name_indices \/ err = invalid_vertex_indices \/
     err = duplicate_name) /\
  (forall index, load_index names vertices_size index_entries = inr index ->
     forall e, In e index_entries ->
       index !! entry_name names e
       = Some {| first := vertex_begin e;
                 count := vertex_end e - vertex_begin e |}).
Proof.
  intros Hu32. unfold load_index. split; [split|split].
  - intros [err Hrun]. apply add_entries_inl in Hrun.
    destruct Hrun as [H|[H|(i & e & _ & Hsome)]]; [now left | now right |].
    rewrite lookup_empty in Hsome. destruct Hsome as [m Hm]. discriminate.
  - intros Hbad.
    destruct (add_entries names vertices_size index_entries ∅)
      as [err|index] eqn:Hrun; [eauto|exfalso].
    apply add_entries_inr in Hrun. destruct Hrun as (Hall & _ & Huniq & _).
    destruct Hbad as [Hex|(i & j & e1 & e2 & Hij & H1 & H2 & Hn)].
    + apply List.Exists_exists in Hex. destruct Hex as (e & Hin & Hout).
      rewrite List.Forall_forall in Hall. exact (Hall e Hin Hout).
    + apply Hij. eapply Huniq; eassumption.
  - apply add_entries_error_kind.
  - intros index Hrun e Hin.
    apply add_entries_inr in Hrun.
    destruct Hrun as (Hall & _ & _ & Hfound & _).
    rewrite (Hfound e Hin). f_equal.
    rewrite List.Forall_forall in Hall, Hu32.
    pose proof (entry_mesh_count e (Hu32 e Hin)) as Hc.
    assert (Hle : vertex_begin e <= vertex_end e).
    { specialize (Hall e Hin). unfold out_of_range in Hall. lia. }
    specialize (Hc Hle). unfold entry_mesh in *. cbn [count] in Hc.
    rewrite Hc. reflexivity.
Qed.

Lemma load_index_fails_iff_witness :
  let es := [ {| name_begin := 0; name_end := 6;
                 vertex_begin := 0; vertex_end := 3 |} ] in
  ((exists err, load_index avatar_chars 3 es = inl err) <->
   (Exists (out_of_range avatar_chars 3) es \/ name_repeated avatar_chars es)) /\
  (forall err, load_index avatar_chars 3 es = inl err ->
     err = invalid_name_indices \/ err = invalid_vertex_indices \/
     err = duplicate_name) /\
  (forall index, load_index avatar_chars 3 es = inr index ->
     forall e, In e es ->
       index !! entry_name avatar_chars e
       = Some {| first := vertex_begin e;
                 count := vertex_end e - vertex_begin e |}).
Proof.
  apply (load_index_fails_iff avatar_chars 3).
  repeat constructor; unfold U32.in_range, U32.modulus; simpl; lia.
Defined.

(** C6, as amended: after a successful load, a lookup either fails with
    the not-found error, exactly when no entry has the name, or returns
    the mesh of an entry with that name: [first = vertex_begin],
    [count = vertex_end - vertex_begin], a range inside the vertex
    buffer, which is empty when the two indices are equal. *)
Theorem lookup_after_load
    (names : list ascii) (vertices_size : Z) (index_entries : list IndexEntry)
    (index : gmap string Mesh) (name : string) :
  Forall u32_entry index_entries ->
  load_index names vertices_size index_entries = inr index ->
  match lookup index name with
  | inr mesh =>
      exists e, In e index_entries /\ entry_name names e = name /\
        first mesh = vertex_begin e /\
        count mesh = vertex_end e - vertex_begin e /\
        0 <= count mesh /\ first mesh + count mesh <= vertices_size /\
        (0 < count mesh <-> vertex_begin e < vertex_end e)
  | inl err =>
      err = mesh_not_found name /\
      forall e, In e index_entries -> entry_name names e <> name
  end.
Proof.
  intros Hu32 Hrun. unfold load_index in Hrun.
  apply add_entries_inr in Hrun.
  destruct Hrun as (Hall & _ & _ & Hfound & _ & Hfrom).
  unfold lookup. destruct (index !! name) as [mesh|] eqn:L.
  - destruct (Hfrom name mesh L) as [H0|(e & Hin & Hname & ->)].
    { rewrite lookup_empty in H0. discriminate. }
    exists e. rewrite List.Forall_forall in Hall, Hu32.
    assert (Hok := Hall e Hin). unfold out_of_range in Hok.
    assert (Hle : vertex_begin e <= vertex_end e) by lia.
    pose proof (entry_mesh_count e (Hu32 e Hin) Hle) as Hc.
    rewrite Hc. cbn [entry_mesh first].
    repeat split; try assumption; lia.
  - split; [reflexivity|]. intros e Hin Hname.
    rewrite <- Hname, (Hfound e Hin) in L. discriminate.
Qed.

Lemma lookup_after_load_witness :
  match lookup {[ "Avatar"%string := {| first := 0; count := 3 |} ]}
               "Avatar"%string with
  | inr mesh =>
      exists e,
        In e [ {| name_begin := 0; name_end := 6;
                  vertex_begin := 0; vertex_end := 3 |} ] /\
        entry_name avatar_chars e = "Avatar"%string /\
        first mesh = vertex_begin e /\
        count mesh = vertex_end e - vertex_begin e /\
        0 <= count mesh /\ first mesh + count mesh <= 3 /\
        (0 < count mesh <-> vertex_begin e < vertex_end e)
  | inl err =>
      err = mesh_not_found "Avatar"%string /\
      forall e,
        In e [ {| name_begin := 0; name_end := 6;
                  vertex_begin := 0; vertex_end := 3 |} ] ->
        entry_name avatar_chars e <> "Avatar"%string
  end.
Proof.
  apply (lookup_after_load avatar_chars 3
           [ {| name_begin := 0; name_end := 6;
                vertex_begin := 0; vertex_end := 3 |} ]).
  - repeat constructor; unfold U32.in_range, U32.modulus; simpl; lia.
  - reflexivity.
Defined.

(** C6, as stated, fails: an index whose entry "Avatar" has an empty
    vertex range loads, and the lookup returns a mesh with [count = 0];
    the lookup of "Peanut" fails although the load succeeded. *)
Lemma lookup_empty_mesh_counterexample :
  let es := [ {| name_begin := 0; name_end := 6;
                 vertex_begin := 0; vertex_end := 0 |} ] in
  exists index,
    load_index avatar_chars 0 es = inr index /\
    In "Avatar"%string required_names /\
    lookup index "Avatar"%string = inr {| first := 0; count := 0 |} /\
    ~ (0 < count {| first := 0; count := 0 |}) /\
    In "Peanut"%string required_names /\
    lookup index "Peanut"%string = inl (mesh_not_found "Peanut"%string).
Proof.
  eexists. split; [reflexivity|].
  split; [simpl; tauto|]. split; [reflexivity|].
  split; [simpl; lia|]. split; [simpl; tauto|]. reflexivity.
Qed.

(** The mesh block of the constructor succeeds exactly when the index
    loads and holds all seven required names; otherwise it fails with
    the error of the index or with the not-found error of a required
    name. *)
Theorem load_meshes_required
    (names : list ascii) (vertices_size : Z) (index_entries : list IndexEntry) :
  match load_meshes names vertices_size index_entries with
  | inr meshes =>
      exists index,
        load_index names vertices_size index_entries = inr index /\
        index !! "Avatar"%string = Some (avatar_mesh meshes) /\
        index !! "Peanut"%string = Some (peanut_mesh meshes) /\
        index !! "Bread"%string = Some (bread_mesh meshes) /\
        index !! "Jelly"%string = Some (jelly_mesh meshes) /\
        index !! "Counter"%string = Some (counter_mesh meshes) /\
        index !! "Serve"%string = Some (serve_mesh meshes) /\
        index !! "Tile"%string = Some (tile_mesh meshes)
  | inl err =>
      load_index names vertices_size index_entries = inl err \/
      exists index name,
        load_index names vertices_size index_entries = inr index /\
        In name required_names /\ index !! name = None /\
        err = mesh_not_found name
  end.
Proof.
  unfold load_meshes.
  destruct (load_index names vertices_size index_entries) as [err|index];
    cbn [bind]; [now left|].
  unfold lookup.
  repeat match goal with
         | |- context [index !! ?n] =>
             lazymatch goal with
             | H : index !! n = _ |- _ => fail
             | _ => destruct (index !! n) eqn:?
             end; cbn [bind]
         end;
    try (right; eexists index, _; split; [reflexivity|];
         split; [|split; [eassumption | reflexivity]]; simpl; tauto).
  exists index. cbn. repeat split; assumption.
Qed.

End CatalogFacts.

(** ** Controls *)

Module ControlsFacts.

Lemma handle_event_pressed (c : Controls) (evt : SDL_Event) (d : Direction) :
  key_pressed evt d -> handle_event c evt = (true, set_flag d true c).
Proof.
  intros (Ht & Hr & Hs). unfold handle_event. rewrite Ht, Hr, Hs.
  destruct d; reflexivity.
Qed.

Lemma handle_event_released (c : Controls) (evt : SDL_Event) (d : Direction) :
  key_released evt d -> handle_event c evt = (true, set_flag d false c).
Proof.
  intros (Ht & Hs). unfold handle_event. rewrite Ht, Hs.
  destruct d; reflexivity.
Qed.

Ltac pick_direction :=
  unfold key_pressed, key_released; cbn [scancode_of];
  first [ exists dir_up; tauto | exists dir_down; tauto
        | exists dir_left; tauto | exists dir_right; tauto ].

Lemma handle_event_true (c : Controls) (evt : SDL_Event) :
  fst (handle_event c evt) = true ->
  exists d, key_pressed evt d \/ key_released evt d.
Proof.
  unfold handle_event.
  destruct (Z.eqb_spec (type evt) SDL_KEYDOWN) as [Hd|Hd];
    destruct (Z.eqb_spec (key_repeat evt) 0) as [Hr|Hr];
    destruct (Z.eqb_spec (type evt) SDL_KEYUP) as [Hu|Hu];
    cbn [andb orb negb];
    destruct (Z.eqb_spec (key_keysym_scancode evt) SDL_SCANCODE_W) as [Hw|Hw];
    destruct (Z.eqb_spec (key_keysym_scancode evt) SDL_SCANCODE_S) as [Hs|Hs];
    destruct (Z.eqb_spec (key_keysym_scancode evt) SDL_SCANCODE_A) as [Ha|Ha];
    destruct (Z.eqb_spec (key_keysym_scancode evt) SDL_SCANCODE_D) as [Hdd|Hdd];
    cbn [fst]; intros H; try discriminate H; pick_direction.
Qed.

(** C8: an automatic repeat of a key-down leaves the controls as they
    were; a key-down that is no repeat, and a key-up, of W, S, A or D
    writes true, respectively false, to the flag of that key and to no
    other; the call returns true exactly for these events; and whenever it
    returns false the controls are unchanged. *)
Theorem handle_event_controls (c : Controls) (evt : SDL_Event) :
  (type evt = SDL_KEYDOWN -> key_repeat evt <> 0 ->
   handle_event c evt = (false, c)) /\
  (forall d, key_pressed evt d ->
     handle_event c evt = (true, set_flag d true c)) /\
  (forall d, key_released evt d ->
     handle_event c evt = (true, set_flag d false c)) /\
  (fst (handle_event c evt) = true <->
   exists d, key_pressed evt d \/ key_released evt d) /\
  (fst (handle_event c evt) = false -> snd (handle_event c evt) = c).
Proof.
  split; [|split; [|split; [|split]]].
  - intros Ht Hr. unfold handle_event. rewrite Ht.
    apply Z.eqb_neq in Hr. rewrite Hr. reflexivity.
  - intros d. apply handle_event_pressed.
  - intros d. apply handle_event_released.
  - split; [apply handle_event_true|].
    intros [d [H|H]].
    + rewrite (handle_event_pressed c evt d H). reflexivity.
    + rewrite (handle_event_released c evt d H). reflexivity.
  - unfold handle_event.
    repeat match goal with
           | |- context [if ?b then _ else _] => destruct b
           end; cbn [fst snd]; intros H; try discriminate H; reflexivity.
Qed.

End ControlsFacts.

(** ** Single-precision comparisons *)

Module F32Facts.
Import F32.

Lemma ltb_le (a b : t) : ltb a b = true -> le a b.
Proof.
  unfold ltb, le, leb, SFltb, SFleb.
  destruct (SFcompare a b) as [[| |]|]; intros H; try discriminate; reflexivity.
Qed.

Lemma le_not_nan (a b : t) : le a b -> is_nan a = false /\ is_nan b = false.
Proof.
  unfold le, leb, SFleb. destruct a, b; simpl; intros H;
    try discriminate; split; reflexivity.
Qed.

Lemma compare_refl (a : t) : is_nan a = false -> SFcompare a a = Some Eq.
Proof.
  destruct a as [s|s| |s m e]; simpl; intros H; try discriminate;
    try (destruct s; reflexivity).
  destruct s; rewrite Z.compare_refl, Pos.compare_cont_refl; reflexivity.
Qed.

Lemma le_refl (a : t) : is_nan a = false -> le a a.
Proof. intros H. unfold le, leb, SFleb. rewrite compare_refl by exact H. reflexivity. Qed.

(** Swapping the sides of a comparison reverses its result. *)
Lemma compare_swap (a b : t) :
  SFcompare b a = option_map CompOpp (SFcompare a b).
Proof.
  destruct a as [sa|sa| |sa ma ea], b as [sb|sb| |sb mb eb]; simpl;
    try reflexivity;
    try (destruct sa; reflexivity); try (destruct sb; reflexivity);
    try (destruct sa, sb; reflexivity).
  destruct sa, sb; try reflexivity;
    rewrite (Z.compare_antisym ea eb);
    destruct (Z.compare ea eb) eqn:E; simpl; try reflexivity;
    pose proof (Pos.compare_cont_antisym ma mb Eq) as Hc; simpl in Hc;
    rewrite Hc; reflexivity.
Qed.

(** The order is total on numbers. *)
Lemma not_ltb_le (a b : t) :
  is_nan a = false -> is_nan b = false -> ltb a b = false -> le b a.
Proof.
  intros Ha Hb. unfold ltb, le, leb, SFltb, SFleb.
  rewrite (compare_swap a b).
  destruct (SFcompare a b) as [[| |]|] eqn:E; simpl; intros H;
    try discriminate; try reflexivity.
  destruct a, b; simpl in *; try discriminate;
    repeat match type of E with
           | context [if ?c then _ else _] => destruct c
           end; discriminate.
Qed.

Lemma compare_opp (a b : t) :
  SFcompare (opp b) (opp a) = SFcompare a b.
Proof.
  destruct a as [sa|sa| |sa ma ea], b as [sb|sb| |sb mb eb]; simpl;
    try reflexivity;
    try (destruct sa; reflexivity); try (destruct sb; reflexivity);
    try (destruct sa, sb; reflexivity).
  destruct sa, sb; simpl; try reflexivity;
    rewrite (Z.compare_antisym ea eb);
    destruct (Z.compare ea eb) eqn:E; simpl; try reflexivity;
    pose proof (Pos.compare_cont_antisym ma mb Eq) as Hc;
    pose proof (Pos.compare_cont_antisym mb ma Eq) as Hc'; simpl in Hc, Hc';
    first [rewrite Hc | rewrite Hc']; reflexivity.
Qed.

Lemma le_opp (a b : t) : le a b -> le (opp b) (opp a).
Proof. unfold le, leb, SFleb. rewrite compare_opp. trivial. Qed.

Lemma opp_involutive (a : t) : opp (opp a) = a.
Proof. destruct a as [s|s| |s m e]; simpl; try reflexivity; destruct s; reflexivity. Qed.

Lemma is_nan_opp (a : t) : is_nan (opp a) = is_nan a.
Proof. destruct a; reflexivity. Qed.

(** A number between [-m] and [m] has an absolute value of at most [m]. *)
Lemma abs_le (x m : t) : le (opp m) x -> le x m -> le (abs x) m.
Proof.
  intros Hlo Hhi.
  destruct x as [s|s| |s mx ex]; try (apply le_not_nan in Hhi; simpl in Hhi;
                                     destruct Hhi; discriminate).
  - destruct m; simpl in *; assumption.
  - destruct s; [|exact Hhi].
    apply le_opp in Hlo. rewrite opp_involutive in Hlo. exact Hlo.
  - destruct s; [|exact Hhi].
    apply le_opp in Hlo. rewrite opp_involutive in Hlo. exact Hlo.
Qed.

Lemma abs_nonneg (m : t) : le zero m -> le (abs m) m.
Proof.
  intros H. apply abs_le; [|apply le_refl, (le_not_nan _ _ H)].
  destruct m as [s|s| |s mm e]; try destruct s; simpl in *;
    try discriminate; try reflexivity.
Qed.

(** What [glm::clamp] to [[-m, m]] returns for a number. *)
Lemma clamp_abs_le (x m : t) :
  is_nan x = false -> le zero m ->
  le (abs (glm_clamp x (opp m) m)) m.
Proof.
  intros Hx Hm.
  destruct (le_not_nan _ _ Hm) as [_ Hmn].
  unfold glm_clamp, glm_min, glm_max.
  destruct (ltb x (opp m)) eqn:E1.
  - destruct (ltb m (opp m)) eqn:E2; [apply abs_nonneg; exact Hm|].
    apply abs_le.
    + apply le_refl. rewrite is_nan_opp. exact Hmn.
    + apply not_ltb_le; [exact Hmn | rewrite is_nan_opp; exact Hmn | exact E2].
  - destruct (ltb m x) eqn:E2; [apply abs_nonneg; exact Hm|].
    apply abs_le.
    + apply not_ltb_le; [exact Hx | rewrite is_nan_opp; exact Hmn | exact E1].
    + apply not_ltb_le; [exact Hmn | exact Hx | exact E2].
Qed.

(** [std::max(1.0f, x)] is at least 1, also when [x] is not a number. *)
Lemma std_max_one (x : t) : le one (std_max one x).
Proof.
  unfold std_max. destruct (ltb one x) eqn:E.
  - apply ltb_le. exact E.
  - reflexivity.
Qed.

(** [std::min(hi, r)] stays between 1 and [hi] when [r] and [hi] are at
    least 1. *)
Lemma std_min_limit (hi r : t) :
  le one hi -> le one r ->
  le one (std_min hi r) /\ le (std_min hi r) hi.
Proof.
  intros Hhi Hr. unfold std_min. destruct (ltb r hi) eqn:E.
  - split; [exact Hr | apply ltb_le; exact E].
  - split; [exact Hhi | apply le_refl, (le_not_nan _ _ Hhi)].
Qed.

End F32Facts.

(** ** Rounding to single precision *)

Module RoundingFacts.
Import F32.

Lemma digits2_pos_bounds (m : positive) :
  2 ^ (Zpos (digits2_pos m) - 1) <= Zpos m < 2 ^ Zpos (digits2_pos m).
Proof.
  induction m as [m IH|m IH|]; cbn [digits2_pos].
  - rewrite Pos2Z.inj_succ.
    replace (Z.succ (Zpos (digits2_pos m)) - 1)
      with (Z.succ (Zpos (digits2_pos m) - 1)) by lia.
    rewrite !Z.pow_succ_r by lia. lia.
  - rewrite Pos2Z.inj_succ.
    replace (Z.succ (Zpos (digits2_pos m)) - 1)
      with (Z.succ (Zpos (digits2_pos m) - 1)) by lia.
    rewrite !Z.pow_succ_r by lia. lia.
  - simpl. lia.
Qed.

(** A positive number of at least [2^k] has more than [k] digits. *)
Lemma digits2_pos_lower (m : positive) (k : Z) :
  0 <= k -> 2 ^ k <= Zpos m -> k < Zpos (digits2_pos m).
Proof.
  intros Hk H. destruct (digits2_pos_bounds m) as [_ Hu].
  apply (Z.pow_lt_mono_r_iff 2); lia.
Qed.

Lemma digits2_pos_iter_xO (m k : positive) :
  digits2_pos (Pos.iter xO m k) = (digits2_pos m + k)%positive.
Proof.
  induction k as [|k IH] using Pos.peano_ind.
  - simpl. lia.
  - rewrite Pos.iter_succ. cbn [digits2_pos]. rewrite IH. lia.
Qed.

Lemma Zpos_iter_xO (m k : positive) :
  Zpos (Pos.iter xO m k) = Zpos m * 2 ^ Zpos k.
Proof.
  induction k as [|k IH] using Pos.peano_ind.
  - simpl. lia.
  - rewrite Pos.iter_succ, Pos2Z.inj_succ, Z.pow_succ_r by lia.
    rewrite Pos2Z.inj_xO, IH. lia.
Qed.

Lemma digits2_pos_succ (m : positive) :
  digits2_pos (Pos.succ m) = digits2_pos m \/
  digits2_pos (Pos.succ m) = Pos.succ (digits2_pos m).
Proof.
  induction m as [m IH|m IH|]; simpl.
  - destruct IH as [H | H]; rewrite H; [now left | now right].
  - now left.
  - now right.
Qed.

(** One shift to the right of a mantissa of two digits or more. *)
Lemma shr_1_digits (mrs : shr_record) (m : positive) :
  shr_m mrs = Zpos m -> 1 < Zpos (digits2_pos m) ->
  exists m', shr_m (shr_1 mrs) = Zpos m' /\
             Zpos (digits2_pos m) = Zpos (digits2_pos m') + 1.
Proof.
  destruct mrs as [mm r s]. cbn [shr_m]. intros -> Hd.
  destruct m as [m|m|]; cbn [shr_1 shr_m digits2_pos] in *.
  - exists m. split; [reflexivity | lia].
  - exists m. split; [reflexivity | lia].
  - lia.
Qed.

(** [k] shifts to the right of a mantissa of more than [k] digits. *)
Lemma iter_shr_1_digits :
  forall (k : positive) (mrs : shr_record) (m : positive),
    shr_m mrs = Zpos m -> Zpos k < Zpos (digits2_pos m) ->
    exists m', shr_m (SpecFloat.iter_pos shr_1 k mrs) = Zpos m' /\
               Zpos (digits2_pos m) = Zpos (digits2_pos m') + Zpos k.
Proof.
  induction k as [k IH|k IH|]; intros mrs m Hm Hk; cbn [SpecFloat.iter_pos].
  - destruct (shr_1_digits mrs m Hm) as (m0 & H0 & D0); [lia|].
    destruct (IH _ _ H0) as (m1 & H1 & D1); [lia|].
    destruct (IH _ _ H1) as (m2 & H2 & D2); [lia|].
    exists m2. split; [exact H2 | lia].
  - destruct (IH _ _ Hm) as (m1 & H1 & D1); [lia|].
    destruct (IH _ _ H1) as (m2 & H2 & D2); [lia|].
    exists m2. split; [exact H2 | lia].
  - apply shr_1_digits; assumption.
Qed.

Lemma shr_1_nonneg (mrs : shr_record) :
  0 <= shr_m mrs -> 0 <= shr_m (shr_1 mrs).
Proof.
  destruct mrs as [m r s]. cbn [shr_m]. intros H.
  destruct m as [|p|p]; [| |lia]; cbn [shr_1 shr_m]; [lia|].
  destruct p; cbn [shr_m]; lia.
Qed.

Lemma iter_shr_1_nonneg :
  forall (k : positive) (mrs : shr_record),
    0 <= shr_m mrs -> 0 <= shr_m (SpecFloat.iter_pos shr_1 k mrs).
Proof.
  induction k as [k IH|k IH|]; intros mrs H; cbn [SpecFloat.iter_pos].
  - apply IH, IH, shr_1_nonneg, H.
  - apply IH, IH, H.
  - apply shr_1_nonneg, H.
Qed.

Lemma shr_m_record_of_loc (m : Z) (l : location) :
  shr_m (shr_record_of_loc m l) = m.
Proof. destruct l as [|[| |]]; reflexivity. Qed.

Lemma shr_fexp_nonneg (m e : Z) (l : location) :
  0 <= m -> 0 <= shr_m (fst (shr_fexp 24 128 m e l)).
Proof.
  intros H. unfold shr_fexp, shr.
  destruct (fexp 24 128 (Zdigits2 m + e) - e) as [|k|k]; cbn [fst];
    try (rewrite shr_m_record_of_loc; exact H).
  apply iter_shr_1_nonneg. rewrite shr_m_record_of_loc. exact H.
Qed.

Lemma round_nearest_even_nonneg (m : Z) (l : location) :
  0 <= m -> 0 <= round_nearest_even m l.
Proof.
  intros H. unfold round_nearest_even.
  destruct l as [|[| |]]; try lia. destruct (Z.even m); lia.
Qed.

(** Rounding a non-negative mantissa never yields a NaN. *)
Lemma binary_round_aux_not_nan (sx : bool) (m e : Z) (l : location) :
  0 <= m -> is_nan (binary_round_aux 24 128 sx m e l) = false.
Proof.
  intros H. unfold binary_round_aux.
  pose proof (shr_fexp_nonneg m e l H) as H1.
  destruct (shr_fexp 24 128 m e l) as [mrs' e'] eqn:E1. cbn [fst] in H1.
  pose proof (shr_fexp_nonneg _ e' loc_Exact
                (round_nearest_even_nonneg _ (loc_of_shr_record mrs') H1)) as H2.
  destruct (shr_fexp 24 128 _ e' loc_Exact) as [mrs'' e''] eqn:E2.
  cbn [fst] in H2.
  destruct (shr_m mrs'') as [|p|p]; [reflexivity | | lia].
  destruct (e'' <=? 128 - 24); reflexivity.
Qed.

Lemma binary_normalize_not_nan (m e : Z) (szero : bool) :
  is_nan (binary_normalize 24 128 m e szero) = false.
Proof.
  unfold binary_normalize, binary_round.
  destruct m as [|p|p]; [reflexivity| |];
    destruct (shl_align p e _) as [mz ez];
    apply binary_round_aux_not_nan; lia.
Qed.

(** Sums and differences: a number plus or minus a finite number is a
    number. *)
Lemma add_not_nan (a b : t) :
  is_nan a = false -> is_finite b = true -> is_nan (add a b) = false.
Proof.
  unfold add, prec, emax.
  destruct a as [sa|sa| |sa ma ea], b as [sb|sb| |sb mb eb]; simpl;
    intros Ha Hb; try discriminate; try reflexivity.
  - destruct sa, sb; reflexivity.
  - apply binary_normalize_not_nan.
Qed.

Lemma sub_not_nan (a b : t) :
  is_nan a = false -> is_finite b = true -> is_nan (sub a b) = false.
Proof.
  unfold sub, prec, emax.
  destruct a as [sa|sa| |sa ma ea], b as [sb|sb| |sb mb eb]; simpl;
    intros Ha Hb; try discriminate; try reflexivity.
  - destruct sa, sb; reflexivity.
  - apply binary_normalize_not_nan.
Qed.

(** Bringing a mantissa of 24 digits or more, in the normal range, to
    the exponent of its binade leaves a mantissa of exactly 24 digits. *)
Lemma shr_fexp_long (mz : positive) (ez : Z) (l : location) :
  24 <= Zpos (digits2_pos mz) ->
  -149 <= Zpos (digits2_pos mz) + ez - 24 ->
  exists mrs m1,
    shr_fexp 24 128 (Zpos mz) ez l
    = (mrs, Zpos (digits2_pos mz) + ez - 24) /\
    shr_m mrs = Zpos m1 /\ Zpos (digits2_pos m1) = 24.
Proof.
  intros Hd Hn. unfold shr_fexp. cbn [Zdigits2].
  set (d := Zpos (digits2_pos mz)) in *.
  replace (fexp 24 128 (d + ez) - ez) with (d - 24)
    by (unfold fexp, emin; lia).
  unfold shr. destruct (d - 24) as [|k|k] eqn:Ek; try lia.
  - exists (shr_record_of_loc (Zpos mz) l), mz.
    rewrite shr_m_record_of_loc.
    split; [f_equal; lia|]. split; [reflexivity | fold d; lia].
  - destruct (iter_shr_1_digits k (shr_record_of_loc (Zpos mz) l) mz)
      as (m1 & H1 & D1).
    + apply shr_m_record_of_loc.
    + fold d. lia.
    + exists (SpecFloat.iter_pos shr_1 k (shr_record_of_loc (Zpos mz) l)), m1.
      fold d in D1.
      split; [f_equal; lia|]. split; [exact H1 | lia].
Qed.

Lemma round_nearest_even_pos (m1 : positive) (l : location) :
  exists m2, round_nearest_even (Zpos m1) l = Zpos m2 /\
             (Zpos (digits2_pos m2) = Zpos (digits2_pos m1) \/
              Zpos (digits2_pos m2) = Zpos (digits2_pos m1) + 1).
Proof.
  assert (Hs : Zpos m1 + 1 = Zpos (Pos.succ m1)) by lia.
  assert (Hd : Zpos (digits2_pos (Pos.succ m1)) = Zpos (digits2_pos m1) \/
               Zpos (digits2_pos (Pos.succ m1)) = Zpos (digits2_pos m1) + 1).
  { destruct (digits2_pos_succ m1) as [H|H]; rewrite H; [now left|right; lia]. }
  unfold round_nearest_even.
  destruct l as [|[| |]]; try (exists m1; split; [reflexivity | now left]).
  - destruct (Z.even (Zpos m1)).
    + exists m1. split; [reflexivity | now left].
    + rewrite Hs. exists (Pos.succ m1). split; [reflexivity | exact Hd].
  - rewrite Hs. exists (Pos.succ m1). split; [reflexivity | exact Hd].
Qed.

Lemma binary_round_aux_long (mz : positive) (ez : Z) (l : location) :
  24 <= Zpos (digits2_pos mz) ->
  -149 <= Zpos (digits2_pos mz) + ez - 24 ->
  binary_round_aux 24 128 false (Zpos mz) ez l = S754_infinity false \/
  exists m' e',
    binary_round_aux 24 128 false (Zpos mz) ez l = S754_finite false m' e' /\
    Zpos (digits2_pos m') = 24 /\
    Zpos (digits2_pos mz) + ez - 24 <= e'.
Proof.
  intros Hd Hn. unfold binary_round_aux.
  destruct (shr_fexp_long mz ez l Hd Hn) as (mrs' & m1 & -> & Hm1 & D1).
  rewrite Hm1.
  destruct (round_nearest_even_pos m1 (loc_of_shr_record mrs'))
    as (m2 & -> & D2).
  destruct (shr_fexp_long m2 (Zpos (digits2_pos mz) + ez - 24) loc_Exact)
    as (mrs'' & m3 & -> & Hm3 & D3); [lia | lia |].
  rewrite Hm3.
  destruct (_ <=? 128 - 24); [right | now left].
  exists m3, (Zpos (digits2_pos m2) + (Zpos (digits2_pos mz) + ez - 24) - 24).
  split; [reflexivity|]. split; [exact D3 | lia].
Qed.

(** Rounding a positive number in the normal range: the result is
    [+infinity] or a normal number in the binade of the argument or the
    next one. *)
Lemma binary_round_normal (m : positive) (e : Z) :
  -149 <= Zpos (digits2_pos m) + e - 24 ->
  binary_round 24 128 false m e = S754_infinity false \/
  exists m' e',
    binary_round 24 128 false m e = S754_finite false m' e' /\
    Zpos (digits2_pos m') = 24 /\
    Zpos (digits2_pos m) + e - 24 <= e'.
Proof.
  intros Hn. unfold binary_round.
  set (d := Zpos (digits2_pos m)) in *.
  replace (fexp 24 128 (d + e)) with (d + e - 24) by (unfold fexp, emin; lia).
  unfold shl_align.
  destruct (d + e - 24 - e) as [|k|k] eqn:Ek.
  - destruct (binary_round_aux_long m e loc_Exact) as [H|(m' & e' & H & D & E)];
      fold d; try lia; [now left | right].
    exists m', e'. fold d in E. repeat split; try assumption.
  - destruct (binary_round_aux_long m e loc_Exact) as [H|(m' & e' & H & D & E)];
      fold d; try lia; [now left | right].
    exists m', e'. fold d in E. repeat split; try assumption.
  - assert (Hk : Zpos (digits2_pos (Pos.iter xO m k)) = 24).
    { rewrite digits2_pos_iter_xO, Pos2Z.inj_add. fold d. lia. }
    destruct (binary_round_aux_long (Pos.iter xO m k) (d + e - 24) loc_Exact)
      as [H|(m' & e' & H & D & E)]; try lia; [now left | right].
    exists m', e'. repeat split; try assumption. lia.
Qed.

Lemma one_eq : one = S754_finite false 8388608 (-23).
Proof. reflexivity. Qed.
Lemma two_eq : two = S754_finite false 8388608 (-22).
Proof. reflexivity. Qed.

(** [n - 2.0f] is at least 1 for every integer [n] from 3 on. *)
Lemma limit_ge_one (n : Z) : 3 <= n -> le one (sub (of_Z n) two).
Proof.
  intros Hn.
  destruct (Z.eq_dec n 3) as [->|Hn3]; [reflexivity|].
  destruct n as [|p|p]; try lia.
  unfold of_Z, sub, prec, emax. rewrite one_eq, two_eq.
  cbn [binary_normalize].
  assert (Hp : 3 <= Zpos (digits2_pos p)).
  { pose proof (digits2_pos_lower p 2). lia. }
  destruct (binary_round_normal p 0) as [->|(m & e & -> & D & E)]; [lia| |].
  - reflexivity.
  - cbn [SFsub]. replace (Z.min e (-22)) with (-22) by lia.
    unfold shl_align. change (-22 - -22) with 0.
    destruct (-22 - e) as [|k|k] eqn:Ek; try lia.
    cbn [fst cond_Zopp].
    pose proof (Zpos_iter_xO m k) as Hv.
    pose proof (digits2_pos_bounds m) as Hb. rewrite D in Hb.
    assert (Hk : 2 <= 2 ^ Zpos k).
    { change 2 with (2 ^ 1) at 1. apply Z.pow_le_mono_r; lia. }
    assert (Hbig : 2 ^ 24 <= Zpos (Pos.iter xO m k)).
    { rewrite Hv. change (24 - 1) with 23 in Hb.
      change (2 ^ 24) with (2 ^ 23 * 2). nia. }
    destruct (Zpos (Pos.iter xO m k) - 8388608) as [|q|q] eqn:Eq;
      try (change (2 ^ 24) with 16777216 in Hbig; lia).
    cbn [binary_normalize].
    assert (Hq : 24 <= Zpos (digits2_pos q)).
    { pose proof (digits2_pos_lower q 23).
      change (2 ^ 24) with 16777216 in Hbig. change (2 ^ 23) with 8388608 in H.
      lia. }
    destruct (binary_round_normal q (-22)) as [->|(m' & e' & -> & D' & E')];
      [lia | reflexivity |].
    unfold le, leb, SFleb. cbn [SFcompare].
    replace (-23 ?= e') with Lt by (symmetry; apply Z.compare_lt_iff; lia).
    reflexivity.
Qed.

End RoundingFacts.

(** ** Integers as single-precision numbers *)

Module ExactFacts.
Import F32 F32Facts RoundingFacts.

Lemma digits2_pos_unique (m : positive) (n : Z) :
  2 ^ (n - 1) <= Zpos m < 2 ^ n -> Zpos (digits2_pos m) = n.
Proof.
  intros [Hl Hu]. pose proof (digits2_pos_bounds m) as [Bl Bu].
  set (d := Zpos (digits2_pos m)) in *.
  assert (Hd : 0 < d) by (unfold d; lia).
  destruct (Z.lt_trichotomy d n) as [H|[H|H]]; [exfalso|exact H|exfalso].
  - assert (2 ^ d <= 2 ^ (n - 1)) by (apply Z.pow_le_mono_r; lia). lia.
  - assert (0 <= n).
    { destruct (Z.le_gt_cases 0 n) as [?|Hn]; [assumption|].
      rewrite (Z.pow_neg_r 2 n) in Hu by lia. lia. }
    assert (2 ^ n <= 2 ^ (d - 1)) by (apply Z.pow_le_mono_r; lia). lia.
Qed.

Local Abbreviation exact_record m :=
  {| shr_m := m; shr_r := false; shr_s := false |}.

(** Shifting zero bits out to the right loses nothing. *)
Lemma iter_shr_1_exact :
  forall (k a : positive),
    SpecFloat.iter_pos shr_1 k (exact_record (Zpos (Pos.iter xO a k)))
    = exact_record (Zpos a).
Proof.
  induction k as [k IH|k IH|]; intros a; cbn [SpecFloat.iter_pos Pos.iter].
  - cbn [shr_1 orb]. rewrite IH, IH. reflexivity.
  - rewrite IH, IH. reflexivity.
  - reflexivity.
Qed.

(** A mantissa in canonical form, in the range of the exponents, is left
    as it is. *)
Lemma binary_round_aux_canonical (s : bool) (K : positive) (e : Z) :
  fexp 24 128 (Zpos (digits2_pos K) + e) = e -> e <= 104 ->
  binary_round_aux 24 128 s (Zpos K) e loc_Exact = S754_finite s K e.
Proof.
  intros HK He. unfold binary_round_aux, shr_fexp. cbn [Zdigits2].
  rewrite HK, Z.sub_diag.
  cbn [shr shr_record_of_loc shr_m loc_of_shr_record round_nearest_even
       Zdigits2].
  rewrite HK, Z.sub_diag. cbn [shr shr_m].
  replace (e <=? 128 - 24) with true by (symmetry; apply Z.leb_le; lia).
  reflexivity.
Qed.

(** A mantissa in canonical form followed by [k] zero bits is rounded to
    itself. *)
Lemma binary_round_aux_shift (s : bool) (K k : positive) (e : Z) :
  fexp 24 128 (Zpos (digits2_pos K) + (e + Zpos k)) = e + Zpos k ->
  e + Zpos k <= 104 ->
  binary_round_aux 24 128 s (Zpos (Pos.iter xO K k)) e loc_Exact
  = S754_finite s K (e + Zpos k).
Proof.
  intros HK He. unfold binary_round_aux, shr_fexp at 1. cbn [Zdigits2].
  rewrite digits2_pos_iter_xO, Pos2Z.inj_add.
  replace (Zpos (digits2_pos K) + Zpos k + e)
    with (Zpos (digits2_pos K) + (e + Zpos k)) by lia.
  rewrite HK. replace (e + Zpos k - e) with (Zpos k) by lia.
  cbn [shr shr_record_of_loc]. rewrite iter_shr_1_exact.
  cbn [shr_m loc_of_shr_record round_nearest_even].
  unfold shr_fexp. cbn [Zdigits2]. rewrite HK, Z.sub_diag.
  cbn [shr shr_record_of_loc shr_m].
  replace (e + Zpos k <=? 128 - 24) with true
    by (symmetry; apply Z.leb_le; lia).
  reflexivity.
Qed.

(** Rounding is exact on a number of at most 24 significant bits in the
    normal range: [q * 2^e] with [q = P * 2^j] and [P] of [d <= 24] digits
    is returned with the mantissa [P * 2^(24 - d)]. *)
Lemma binary_round_exact (q P K : positive) (e j : Z) :
  0 <= j -> Zpos q = Zpos P * 2 ^ j ->
  Zpos (digits2_pos P) <= 24 ->
  Zpos K = Zpos P * 2 ^ (24 - Zpos (digits2_pos P)) ->
  -149 <= e + j + Zpos (digits2_pos P) - 24 <= 104 ->
  binary_round 24 128 false q e
  = S754_finite false K (e + j + Zpos (digits2_pos P) - 24).
Proof.
  intros Hj Hq Hd HK He.
  pose proof (digits2_pos_bounds P) as [Bl Bu].
  set (d := Zpos (digits2_pos P)) in *.
  assert (Hd0 : 0 < d) by (unfold d; lia).
  assert (DK : Zpos (digits2_pos K) = 24).
  { apply digits2_pos_unique. rewrite HK.
    assert (X : 0 < 2 ^ (24 - d)) by (apply Z.pow_pos_nonneg; lia).
    assert (E1 : 2 ^ (24 - 1) = 2 ^ (d - 1) * 2 ^ (24 - d)).
    { rewrite <- Z.pow_add_r by lia. f_equal. lia. }
    assert (E2 : 2 ^ 24 = 2 ^ d * 2 ^ (24 - d)).
    { rewrite <- Z.pow_add_r by lia. f_equal. lia. }
    rewrite E1, E2. split.
    - apply Z.mul_le_mono_nonneg_r; lia.
    - apply Z.mul_lt_mono_pos_r; lia. }
  assert (Dq : Zpos (digits2_pos q) = d + j).
  { apply digits2_pos_unique. rewrite Hq.
    assert (X : 0 < 2 ^ j) by (apply Z.pow_pos_nonneg; lia).
    assert (E1 : 2 ^ (d + j - 1) = 2 ^ (d - 1) * 2 ^ j).
    { rewrite <- Z.pow_add_r by lia. f_equal. lia. }
    assert (E2 : 2 ^ (d + j) = 2 ^ d * 2 ^ j).
    { rewrite <- Z.pow_add_r by lia. reflexivity. }
    rewrite E1, E2. split.
    - apply Z.mul_le_mono_nonneg_r; lia.
    - apply Z.mul_lt_mono_pos_r; lia. }
  unfold binary_round. rewrite Dq.
  replace (fexp 24 128 (d + j + e)) with (e + j + d - 24)
    by (unfold fexp, emin; lia).
  unfold shl_align.
  destruct (e + j + d - 24 - e) as [|n|n] eqn:En.
  - assert (q = K); [|subst q].
    { apply Pos2Z.inj. rewrite Hq, HK. f_equal. f_equal. lia. }
    replace (e + j + d - 24) with e by lia.
    apply binary_round_aux_canonical; [rewrite DK; unfold fexp, emin; lia | lia].
  - assert (q = Pos.iter xO K n); [|subst q].
    { apply Pos2Z.inj. rewrite Zpos_iter_xO, Hq, HK, <- Z.mul_assoc.
      rewrite <- Z.pow_add_r by lia. f_equal. f_equal. lia. }
    replace (e + j + d - 24) with (e + Zpos n) by lia.
    apply binary_round_aux_shift; [rewrite DK; unfold fexp, emin; lia | lia].
  - assert (Pos.iter xO q n = K) as ->.
    { apply Pos2Z.inj. rewrite Zpos_iter_xO, Hq, HK, <- Z.mul_assoc.
      rewrite <- Z.pow_add_r by lia. f_equal. f_equal. lia. }
    apply binary_round_aux_canonical; [rewrite DK; unfold fexp, emin; lia | lia].
Qed.


(** The mantissa of the [float] of an integer of at most 24 bits. *)
Lemma mantissa_exists (P : positive) :
  Zpos (digits2_pos P) <= 24 ->
  exists K, Zpos K = Zpos P * 2 ^ (24 - Zpos (digits2_pos P)).
Proof.
  intros Hd. exists (Z.to_pos (Zpos P * 2 ^ (24 - Zpos (digits2_pos P)))).
  rewrite Z2Pos.id; [reflexivity|].
  apply Z.mul_pos_pos; [lia | apply Z.pow_pos_nonneg; lia].
Qed.

(** Every integer from 1 to [2^24 - 1] is a [float]. *)
Lemma of_Z_exact (P K : positive) :
  Zpos (digits2_pos P) <= 24 ->
  Zpos K = Zpos P * 2 ^ (24 - Zpos (digits2_pos P)) ->
  of_Z (Zpos P) = S754_finite false K (Zpos (digits2_pos P) - 24).
Proof.
  intros Hd HK. unfold of_Z, prec, emax. cbn [binary_normalize].
  rewrite (binary_round_exact P P K 0 0); try assumption; try lia.
  f_equal; lia.
Qed.

Lemma small_digits (P : positive) :
  Zpos P < 2 ^ 24 -> Zpos (digits2_pos P) <= 24.
Proof.
  intros H. pose proof (digits2_pos_bounds P) as [Bl _].
  apply Z.nlt_ge. intros Hgt.
  assert (Hp : 2 ^ 24 <= 2 ^ (Zpos (digits2_pos P) - 1)).
  { apply Z.pow_le_mono_r; lia. }
  lia.
Qed.

(** [board_size - 2.0f] is the [float] of the integer [board_size - 2]
    for every size from 3 to [2^24 - 1]. *)
Lemma limit_exact (n : Z) :
  3 <= n < 2 ^ 24 -> sub (of_Z n) two = of_Z (n - 2).
Proof.
  intros Hn.
  destruct n as [|P|P]; try lia.
  destruct (Zpos P - 2) as [|Q|Q] eqn:EQ; try lia.
  pose proof (small_digits P ltac:(lia)) as DP.
  pose proof (small_digits Q ltac:(lia)) as DQ.
  destruct (mantissa_exists P DP) as [KP HKP].
  destruct (mantissa_exists Q DQ) as [KQ HKQ].
  rewrite (of_Z_exact P KP DP HKP), (of_Z_exact Q KQ DQ HKQ), two_eq.
  assert (D2 : 2 <= Zpos (digits2_pos P)).
  { pose proof (digits2_pos_lower P 1). lia. }
  set (d := Zpos (digits2_pos P)) in *.
  set (d' := Zpos (digits2_pos Q)) in *.
  unfold sub, prec, emax. cbn [SFsub].
  replace (Z.min (d - 24) (-22)) with (-22) by lia.
  unfold shl_align. change (-22 - -22) with 0. cbn [fst cond_Zopp].
  assert (HA : forall A : positive, Zpos A = Zpos P * 2 ^ 22 ->
            binary_normalize 24 128 (Zpos A - 8388608) (-22) false
            = S754_finite false KQ (d' - 24)).
  { intros A HA.
    assert (Hdiff : Zpos A - 8388608 = Zpos Q * 2 ^ 22).
    { rewrite HA. change 8388608 with (2 * 2 ^ 22). lia. }
    destruct (Zpos A - 8388608) as [|q|q] eqn:Eq; try lia.
    cbn [binary_normalize].
    rewrite (binary_round_exact q Q KQ (-22) 22); try assumption; try lia.
    f_equal; fold d'; lia. }
  destruct (-22 - (d - 24)) as [|k|k] eqn:Ek; try lia; cbn [fst].
  - apply HA. rewrite HKP. f_equal. f_equal. lia.
  - apply HA. rewrite Zpos_iter_xO, HKP, <- Z.mul_assoc.
    rewrite <- Z.pow_add_r by lia. f_equal. f_equal. lia.
Qed.


(** The [float] of an integer from 1 to [2^24] is that integer. *)
Lemma to_integer_of_Z (n : Z) :
  1 <= n <= 2 ^ 24 -> to_integer (of_Z n) = Some n.
Proof.
  intros Hn. destruct (Z.eq_dec n (2 ^ 24)) as [->|Hne]; [reflexivity|].
  destruct n as [|P|P]; try lia.
  pose proof (small_digits P ltac:(lia)) as DP.
  destruct (mantissa_exists P DP) as [K HK].
  rewrite (of_Z_exact P K DP HK). unfold to_integer. cbn [cond_Zopp].
  set (d := Zpos (digits2_pos P)) in *.
  destruct (Z.leb_spec 0 (d - 24)) as [H0|H0].
  - rewrite HK. replace (24 - d) with 0 by lia.
    replace (d - 24) with 0 by lia. f_equal. change (2 ^ 0) with 1. lia.
  - replace (- (d - 24)) with (24 - d) by lia. rewrite HK.
    assert (X : 2 ^ (24 - d) <> 0).
    { apply Z.pow_nonzero; lia. }
    rewrite Z.mod_mul, Z.div_mul by exact X. reflexivity.
Qed.

(** The order of the comparison is transitive. *)
Lemma le_trans (a b c : t) : le a b -> le b c -> le a c.
Proof.
  unfold le, leb, SFleb.
  destruct a as [sa|sa| |sa ma ea], b as [sb|sb| |sb mb eb],
           c as [sc|sc| |sc mc ec]; cbn [SFcompare];
    try destruct sa; try destruct sb; try destruct sc;
    intros H1 H2; try discriminate; try reflexivity.
  - destruct (Z.compare_spec ea eb), (Z.compare_spec eb ec),
             (Z.compare_spec ea ec); subst; try discriminate;
      try reflexivity; try lia.
    revert H1 H2. rewrite !Pos.compare_cont_spec. cbn [Pos.switch_Eq].
    destruct (Pos.compare_spec ma mb), (Pos.compare_spec mb mc),
             (Pos.compare_spec ma mc); subst; cbn;
      intros; try discriminate; try reflexivity; lia.
  - destruct (Z.compare_spec ea eb), (Z.compare_spec eb ec),
             (Z.compare_spec ea ec); subst; try discriminate;
      try reflexivity; try lia.
    revert H1 H2. rewrite !Pos.compare_cont_spec. cbn [Pos.switch_Eq].
    destruct (Pos.compare_spec ma mb), (Pos.compare_spec mb mc),
             (Pos.compare_spec ma mc); subst; cbn;
      intros; try discriminate; try reflexivity; lia.
Qed.

(** [board_size - 2.0f] is at most the [float] of [board_size - 2] for
    every size from 3 to 16777218. *)
Lemma limit_le (n : Z) :
  3 <= n <= 16777218 -> le (sub (of_Z n) two) (of_Z (n - 2)).
Proof.
  intros Hn. destruct (Z.lt_ge_cases n (2 ^ 24)) as [Hlt|Hge].
  - rewrite limit_exact by lia. apply le_refl.
    apply binary_normalize_not_nan.
  - change (2 ^ 24) with 16777216 in Hge.
    assert (Hc : n = 16777216 \/ n = 16777217 \/ n = 16777218) by lia.
    destruct Hc as [-> | [-> | ->]]; reflexivity.
Qed.











End ExactFacts.

(** ** Motion *)

Module MotionFacts.
Import F32 F32Facts RoundingFacts ExactFacts.

(** *** Position *)

Lemma move_board_size (g : Game) : board_size (move g) = board_size g.
Proof. unfold move. destruct (vec3.neqb _ _); reflexivity. Qed.

Lemma update_board_size (g : Game) (elapsed : t) :
  board_size (update g elapsed) = board_size g.
Proof. unfold update. rewrite move_board_size. reflexivity. Qed.

(** The two clamps of [move] keep the position within the limits that
    the code computes, [board_size - 2.0f]. *)
Lemma move_inside (g : Game) :
  3 <= uvec2.x (board_size g) -> 3 <= uvec2.y (board_size g) ->
  avatar_inside g -> avatar_inside (move g).
Proof.
  intros Hx Hy Hin. unfold move.
  destruct (vec3.neqb _ _); [|exact Hin].
  unfold avatar_inside, x_limit, y_limit.
  cbn [set_avatar_location avatar_location board_size vec3.x vec3.y].
  pose proof (limit_ge_one _ Hx) as Lx. pose proof (limit_ge_one _ Hy) as Ly.
  destruct (std_min_limit _ _ Lx (std_max_one
              (vec3.x (vec3.add (avatar_location g) (displacement g))))).
  destruct (std_min_limit _ _ Ly (std_max_one
              (vec3.y (vec3.add (avatar_location g) (displacement g))))).
  unfold x_limit, y_limit. tauto.
Qed.

Lemma update_inside (g : Game) (elapsed : t) :
  3 <= uvec2.x (board_size g) -> 3 <= uvec2.y (board_size g) ->
  avatar_inside g -> avatar_inside (update g elapsed).
Proof. intros Hx Hy Hin. unfold update. apply move_inside; assumption. Qed.

(** The clamps of [move] keep the position within the integer bounds,
    since the limit that the code computes is at most the [float] of
    [board_size - 2] on these boards. *)
Lemma move_within (g : Game) :
  3 <= uvec2.x (board_size g) <= 16777218 ->
  3 <= uvec2.y (board_size g) <= 16777218 ->
  within_board (board_size g) (avatar_location g) ->
  within_board (board_size g) (avatar_location (move g)).
Proof.
  intros Hx Hy Hin. unfold move.
  destruct (vec3.neqb _ _); [|exact Hin].
  unfold within_board.
  cbn [set_avatar_location avatar_location vec3.x vec3.y].
  pose proof (limit_ge_one _ (proj1 Hx)) as Lx.
  pose proof (limit_ge_one _ (proj1 Hy)) as Ly.
  destruct (std_min_limit _ _ Lx (std_max_one
              (vec3.x (vec3.add (avatar_location g) (displacement g)))))
    as [X1 X2].
  destruct (std_min_limit _ _ Ly (std_max_one
              (vec3.y (vec3.add (avatar_location g) (displacement g)))))
    as [Y1 Y2].
  repeat split; try assumption.
  - exact (le_trans _ _ _ X2 (limit_le _ Hx)).
  - exact (le_trans _ _ _ Y2 (limit_le _ Hy)).
Qed.

Lemma update_within (g : Game) (elapsed : t) :
  3 <= uvec2.x (board_size g) <= 16777218 ->
  3 <= uvec2.y (board_size g) <= 16777218 ->
  within_board (board_size g) (avatar_location g) ->
  within_board (board_size g) (avatar_location (update g elapsed)).
Proof.
  intros Hx Hy Hin. unfold update.
  exact (move_within (clamp_velocity (stop_idle_axes (accelerate elapsed g)))
           Hx Hy Hin).
Qed.

Lemma run_board_size (inputs : list (Controls * t)) :
  forall g, board_size (run g inputs) = board_size g.
Proof.
  induction inputs as [|i inputs IH]; intros g; [reflexivity|].
  unfold run in *. cbn [fold_left]. rewrite IH. unfold tick.
  exact (update_board_size (set_controls (fst i) g) (snd i)).
Qed.

(** C2, as amended: on a board whose width and height are between 3 and
    16777218, an avatar that starts within
    [1, board_width - 2] x [1, board_height - 2] is within it after any
    number of ticks, whatever the controls and the elapsed times. The
    bounds are the [float]s of the integers 1 and [board_size - 2], which
    are these integers exactly; the coordinates are compared with them
    as [float]s. *)
Theorem avatar_stays_inside (g : Game) (inputs : list (Controls * t)) :
  3 <= uvec2.x (board_size g) <= 16777218 ->
  3 <= uvec2.y (board_size g) <= 16777218 ->
  within_board (board_size g) (avatar_location g) ->
  within_board (board_size g) (avatar_location (run g inputs)) /\
  to_integer one = Some 1 /\
  to_integer (of_Z (uvec2.x (board_size g) - 2))
  = Some (uvec2.x (board_size g) - 2) /\
  to_integer (of_Z (uvec2.y (board_size g) - 2))
  = Some (uvec2.y (board_size g) - 2).
Proof.
  intros Hx Hy Hin. split.
  - revert g Hx Hy Hin.
    induction inputs as [|i inputs IH]; intros g Hx Hy Hin; [exact Hin|].
    unfold run in *. cbn [fold_left].
    assert (Hb : board_size (tick g i) = board_size g)
      by exact (update_board_size (set_controls (fst i) g) (snd i)).
    rewrite <- Hb. apply IH; rewrite ?Hb; try assumption.
    exact (update_within (set_controls (fst i) g) (snd i) Hx Hy Hin).
  - split; [reflexivity|].
    split; apply to_integer_of_Z; change (2 ^ 24) with 16777216; lia.
Qed.

Lemma avatar_stays_inside_witness :
  within_board (uvec2.mk 6 6)
    (avatar_location
       (run (at_rest five one) [(only_right, tenth); (left_and_right, tenth)]))
  /\ to_integer one = Some 1 /\
  to_integer (of_Z (6 - 2)) = Some (6 - 2) /\
  to_integer (of_Z (6 - 2)) = Some (6 - 2).
Proof.
  apply (avatar_stays_inside (at_rest five one)).
  - simpl. lia.
  - simpl. lia.
  - repeat split.
Defined.

(** C2, as stated, fails on wide boards. The code clamps to
    [board_size.x - 2.0f]: on the board of width 16777219 the conversion
    of the width to [float] rounds to 16777220 (a [float] keeps 24 bits,
    and the tie between 16777218 and 16777220 goes to the even mantissa),
    so the limit is 16777218. From x = 16777216, at rest, one tick of 1 s
    with the right key held, acceleration 5 and a maximal velocity of 5
    gives a velocity of 5; 16777216 + 5 is rounded to 16777220, and the
    clamp returns 16777218, above [board_width - 2 = 16777217]. *)
Lemma avatar_wide_board_counterexample :
  let g := on_wide_board in
  let g' := run g [(only_right, one)] in
  board_size g = uvec2.mk 16777219 3 /\
  to_integer (vec3.x (avatar_location g)) = Some 16777216 /\
  to_integer (vec3.y (avatar_location g)) = Some 1 /\
  1 <= 16777216 <= 16777219 - 2 /\ 1 <= 1 <= 3 - 2 /\
  within_board (board_size g) (avatar_location g) /\
  to_integer (x_limit g) = Some 16777218 /\
  to_integer (vec3.x (avatar_location g')) = Some 16777218 /\
  16777219 - 2 < 16777218 /\
  leb (vec3.x (avatar_location g')) (of_Z (16777219 - 2)) = false.
Proof.
  repeat split; try (vm_compute; reflexivity); try lia;
    vm_compute; discriminate.
Qed.

(** *** Velocity *)

Lemma accelerate_not_nan (elapsed : t) (g : Game) :
  is_nan (x_velocity g) = false -> is_nan (y_velocity g) = false ->
  is_finite (mul elapsed (acceleration g)) = true ->
  is_nan (x_velocity (accelerate elapsed g)) = false /\
  is_nan (y_velocity (accelerate elapsed g)) = false.
Proof.
  intros Hx Hy Hd. unfold accelerate. cbn [set_motion x_velocity y_velocity].
  split.
  - destruct (go_left (controls g)), (go_right (controls g));
      repeat first [apply add_not_nan | apply sub_not_nan]; assumption.
  - destruct (go_up (controls g)), (go_down (controls g));
      repeat first [apply add_not_nan | apply sub_not_nan]; assumption.
Qed.

Lemma stop_idle_axes_not_nan (g : Game) :
  is_nan (x_velocity g) = false -> is_nan (y_velocity g) = false ->
  is_nan (x_velocity (stop_idle_axes g)) = false /\
  is_nan (y_velocity (stop_idle_axes g)) = false.
Proof.
  intros Hx Hy. unfold stop_idle_axes. cbn [set_motion x_velocity y_velocity].
  split; match goal with |- context [if ?c then _ else _] => destruct c end;
    (reflexivity || assumption).
Qed.

Lemma move_velocity (g : Game) :
  x_velocity (move g) = x_velocity g /\ y_velocity (move g) = y_velocity g /\
  max_velocity (move g) = max_velocity g.
Proof. unfold move. destruct (vec3.neqb _ _); repeat split. Qed.

Lemma update_constants (g : Game) (elapsed : t) :
  max_velocity (update g elapsed) = max_velocity g /\
  acceleration (update g elapsed) = acceleration g.
Proof. unfold update, move. destruct (vec3.neqb _ _); split; reflexivity. Qed.

(** The velocities after [update] are the clamped velocities of the
    first two steps. *)
Lemma update_velocity (g : Game) (elapsed : t) :
  let g' := stop_idle_axes (accelerate elapsed g) in
  x_velocity (update g elapsed)
  = glm_clamp (x_velocity g') (opp (max_velocity g)) (max_velocity g) /\
  y_velocity (update g elapsed)
  = glm_clamp (y_velocity g') (opp (max_velocity g)) (max_velocity g).
Proof.
  intros g'. unfold update. fold g'.
  destruct (move_velocity (clamp_velocity g')) as (-> & -> & _).
  split; reflexivity.
Qed.







Lemma abs_le_not_nan (v m : t) : le (abs v) m -> is_nan v = false.
Proof.
  intros H. apply le_not_nan in H. destruct H as [H _].
  destruct v; try reflexivity. discriminate.
Qed.

(** The bound is an invariant of the frame loop: from velocities that are
    numbers, after one tick or more whose [elapsed * acceleration] are all
    finite, both components are within [max_velocity]. *)
Theorem velocity_clamped_run (inputs : list (Controls * t)) :
  forall g : Game,
    le zero (max_velocity g) ->
    is_nan (x_velocity g) = false -> is_nan (y_velocity g) = false ->
    Forall (fun i => is_finite (mul (snd i) (acceleration g)) = true) inputs ->
    inputs <> [] ->
    le (abs (x_velocity (run g inputs))) (max_velocity g) /\
    le (abs (y_velocity (run g inputs))) (max_velocity g).
Proof.
  induction inputs as [|i inputs IH]; intros g Hm Hx Hy Hall Hne;
    [contradiction|].
  apply List.Forall_cons_iff in Hall. destruct Hall as [Hi Hall].
  unfold run. cbn [fold_left]. fold (run (tick g i) inputs).
  assert (Bx : le (abs (x_velocity (update (set_controls (fst i) g) (snd i))))
                  (max_velocity g) /\
               le (abs (y_velocity (update (set_controls (fst i) g) (snd i))))
                  (max_velocity g)).
  { destruct (update_velocity (set_controls (fst i) g) (snd i)) as [-> ->].
    destruct (accelerate_not_nan (snd i) (set_controls (fst i) g) Hx Hy Hi)
      as [Hx1 Hy1].
    destruct (stop_idle_axes_not_nan _ Hx1 Hy1) as [Hx2 Hy2].
    split; apply clamp_abs_le; assumption. }
  destruct Bx as [Bx By].
  destruct (update_constants (set_controls (fst i) g) (snd i)) as [Cm Ca].
  fold (tick g i) in Bx, By, Cm, Ca. cbn [set_controls max_velocity acceleration]
    in Bx, By, Cm, Ca.
  destruct inputs as [|j inputs]; [split; assumption|].
  rewrite <- Cm. apply IH.
  - rewrite Cm. exact Hm.
  - apply (abs_le_not_nan _ _ Bx).
  - apply (abs_le_not_nan _ _ By).
  - rewrite Ca. exact Hall.
  - discriminate.
Qed.

Lemma velocity_clamped_run_witness :
  le (abs (x_velocity (run (at_rest five one)
                           [(only_right, tenth); (left_and_right, tenth)])))
     one /\
  le (abs (y_velocity (run (at_rest five one)
                           [(only_right, tenth); (left_and_right, tenth)])))
     one.
Proof.
  apply (velocity_clamped_run [(only_right, tenth); (left_and_right, tenth)]
           (at_rest five one)); try reflexivity.
  - repeat constructor.
  - discriminate.
Defined.

(** *** Facing *)

(** C10: the rotation after [update] is the one assigned by the last
    pressed direction in the order left, right, up, down: -90 degrees
    when down is held, else 90 when up is held, else the default rotation
    (0 degrees) when right is held, else 180 when left is held; with no
    direction held the rotation is unchanged. *)
Theorem facing_last_pressed (g : Game) (elapsed : t) :
  avatar_rotation (update g elapsed)
  = (if go_down (controls g) then quat_euler_z (-90)
     else if go_up (controls g) then quat_euler_z 90
     else if go_right (controls g) then quat_default
     else if go_left (controls g) then quat_euler_z 180
     else avatar_rotation g) /\
  (go_down (controls g) = true ->
   facing_degrees (avatar_rotation (update g elapsed)) = -90) /\
  (controls g = no_direction ->
   avatar_rotation (update g elapsed) = avatar_rotation g).
Proof.
  assert (H : avatar_rotation (update g elapsed)
              = (if go_down (controls g) then quat_euler_z (-90)
                 else if go_up (controls g) then quat_euler_z 90
                 else if go_right (controls g) then quat_default
                 else if go_left (controls g) then quat_euler_z 180
                 else avatar_rotation g)).
  { unfold update, move. 
    destruct (vec3.neqb _ _); cbn [set_avatar_location avatar_rotation];
      unfold clamp_velocity, stop_idle_axes, accelerate;
      cbn [set_motion avatar_rotation controls];
      destruct (go_down (controls g)), (go_up (controls g)),
               (go_right (controls g)), (go_left (controls g)); reflexivity. }
  split; [exact H|]. split.
  - intros Hd. rewrite H, Hd. reflexivity.
  - intros Hc. rewrite H, Hc. reflexivity.
Qed.


(** *** Opposing keys *)

(** From a zero, subtracting and then adding a finite number gives +0,
    and so does adding and then subtracting it. *)
Lemma sub_add_from_zero (s : bool) (d : t) :
  is_finite d = true -> add (sub (S754_zero s) d) d = zero.
Proof.
  unfold add, sub, prec, emax, zero.
  destruct d as [sd|sd| |sd md ed]; intros H; try discriminate.
  - destruct s, sd; reflexivity.
  - cbn [SFsub SFadd]. unfold shl_align.
    rewrite Z.min_id, Z.sub_diag. cbn [fst].
    replace (cond_Zopp (negb sd) (Zpos md) + cond_Zopp sd (Zpos md)) with 0
      by (destruct sd; simpl; lia).
    reflexivity.
Qed.

Lemma add_sub_from_zero (s : bool) (d : t) :
  is_finite d = true -> sub (add (S754_zero s) d) d = zero.
Proof.
  unfold add, sub, prec, emax, zero.
  destruct d as [sd|sd| |sd md ed]; intros H; try discriminate.
  - destruct s, sd; reflexivity.
  - cbn [SFsub SFadd]. unfold shl_align.
    rewrite Z.min_id, Z.sub_diag. cbn [fst].
    reflexivity.
Qed.

Lemma glm_clamp_zero (m : t) : le zero m -> glm_clamp zero (opp m) m = zero.
Proof.
  intros H. unfold glm_clamp, glm_max, glm_min.
  destruct m as [s|s| |s mm e]; try destruct s; try discriminate; reflexivity.
Qed.

(** C4, as amended: when both keys of an axis are held, the acceleration
    step subtracts and adds (for x), or adds and subtracts (for y), the
    same [elapsed * acceleration], each operation rounded to single
    precision; neither key takes priority and the velocity is not zeroed,
    only clamped. From a zero velocity, with a finite
    [elapsed * acceleration], the two cancel exactly. *)
Theorem opposing_keys_cancel (g : Game) (elapsed : t) :
  let d := mul elapsed (acceleration g) in
  let m := max_velocity g in
  (go_left (controls g) = true -> go_right (controls g) = true ->
   x_velocity (accelerate elapsed g) = add (sub (x_velocity g) d) d /\
   x_velocity (update g elapsed)
   = glm_clamp (add (sub (x_velocity g) d) d) (opp m) m /\
   (is_finite d = true -> (exists s, x_velocity g = S754_zero s) ->
    x_velocity (accelerate elapsed g) = zero /\
    (le zero m -> x_velocity (update g elapsed) = zero))) /\
  (go_up (controls g) = true -> go_down (controls g) = true ->
   y_velocity (accelerate elapsed g) = sub (add (y_velocity g) d) d /\
   y_velocity (update g elapsed)
   = glm_clamp (sub (add (y_velocity g) d) d) (opp m) m /\
   (is_finite d = true -> (exists s, y_velocity g = S754_zero s) ->
    y_velocity (accelerate elapsed g) = zero /\
    (le zero m -> y_velocity (update g elapsed) = zero))).
Proof.
  intros d m. split.
  - intros Hl Hr.
    assert (Ha : x_velocity (accelerate elapsed g) = add (sub (x_velocity g) d) d).
    { unfold accelerate. cbn [set_motion x_velocity]. rewrite Hl, Hr. reflexivity. }
    assert (Hu : x_velocity (update g elapsed)
                 = glm_clamp (add (sub (x_velocity g) d) d) (opp m) m).
    { unfold update.
      destruct (move_velocity
                  (clamp_velocity (stop_idle_axes (accelerate elapsed g))))
        as (-> & _ & _).
      unfold clamp_velocity, stop_idle_axes.
      cbn [set_motion x_velocity max_velocity controls].
      change (controls (accelerate elapsed g)) with (controls g).
      change (max_velocity (accelerate elapsed g)) with m.
      rewrite Hl, Ha. reflexivity. }
    split; [exact Ha|]. split; [exact Hu|].
    intros Hd [s Hs]. rewrite Hu, Ha, Hs, sub_add_from_zero by exact Hd.
    split; [reflexivity|]. apply glm_clamp_zero.
  - intros Hup Hdn.
    assert (Ha : y_velocity (accelerate elapsed g) = sub (add (y_velocity g) d) d).
    { unfold accelerate. cbn [set_motion y_velocity]. rewrite Hup, Hdn. reflexivity. }
    assert (Hu : y_velocity (update g elapsed)
                 = glm_clamp (sub (add (y_velocity g) d) d) (opp m) m).
    { unfold update.
      destruct (move_velocity
                  (clamp_velocity (stop_idle_axes (accelerate elapsed g))))
        as (_ & -> & _).
      unfold clamp_velocity, stop_idle_axes.
      cbn [set_motion y_velocity max_velocity controls].
      change (controls (accelerate elapsed g)) with (controls g).
      change (max_velocity (accelerate elapsed g)) with m.
      rewrite Hup, Ha. reflexivity. }
    split; [exact Ha|]. split; [exact Hu|].
    intros Hd [s Hs]. rewrite Hu, Ha, Hs, add_sub_from_zero by exact Hd.
    split; [reflexivity|]. apply glm_clamp_zero.
Qed.

Lemma opposing_keys_cancel_witness :
  x_velocity (accelerate tenth (set_controls left_and_right (at_rest five one)))
  = zero /\
  (le zero one ->
   x_velocity (update (set_controls left_and_right (at_rest five one)) tenth)
   = zero).
Proof.
  destruct (opposing_keys_cancel
              (set_controls left_and_right (at_rest five one)) tenth)
    as [Hx _].
  destruct (Hx eq_refl eq_refl) as (_ & _ & Hrest).
  apply Hrest; [reflexivity | exists false; reflexivity].
Defined.

(** C4, as stated, fails by rounding. From rest, with acceleration 5 and
    a maximal velocity of 1, a tick of 0.001 with the right key held
    brings [x_velocity] to 10737419 * 2^-31 (about 0.005). In a tick of
    0.1 with both left and right held, [elapsed * acceleration] is 0.5,
    that is 2^30 * 2^-31. The exact difference is -1063004405 * 2^-31; a
    [float] keeps 24 bits, so it is rounded to a multiple of 64 * 2^-31,
    -1063004416 * 2^-31. Adding 0.5 back gives 10737408 * 2^-31: the
    velocity has changed by 11 * 2^-31. *)
Lemma opposing_keys_rounding_counterexample :
  let g := set_controls left_and_right
             (run (at_rest five one) [(only_right, thousandth)]) in
  go_left (controls g) = true /\ go_right (controls g) = true /\
  x_velocity g = S754_finite false 10737419 (-31) /\
  mul tenth (acceleration g) = half /\
  x_velocity (accelerate tenth g) = S754_finite false 10737408 (-31) /\
  x_velocity (update g tenth) = S754_finite false 10737408 (-31) /\
  x_velocity (accelerate tenth g) <> x_velocity g.
Proof.
  repeat split; try (vm_compute; reflexivity).
  vm_compute. discriminate.
Qed.

(** *** One tick *)









(** The scenario in numbers: the velocity becomes 0.5 and the abscissa
    1.5. *)
Example right_key_one_tick :
  x_velocity (update (set_controls only_right (at_rest five one)) tenth)
  = S754_finite false 8388608 (-24) /\
  avatar_location (update (set_controls only_right (at_rest five one)) tenth)
  = vec3.mk (S754_finite false 12582912 (-23)) one zero.
Proof. split; vm_compute; reflexivity. Qed.

End MotionFacts.

(** ** The draw calls of a frame *)

Module DrawFacts.

Lemma in_board_pass (bs : uvec2.t) (k : KeyLocations) (x y : Z) (b : bool) :
  In (x, y, b) (board_pass bs k) <->
  exists i, 0 <= i < U32.mul (uvec2.x bs) (uvec2.y bs) /\
    x = i / uvec2.x bs /\ y = i mod uvec2.y bs /\
    b = on_edge bs x y && not_occupied k x y.
Proof.
  unfold board_pass. rewrite in_map_iff. split.
  - intros (i & Heq & Hin). apply list_elem_of_In, elem_of_seqZ in Hin.
    injection Heq as <- <- <-. exists i. repeat split; lia.
  - intros (i & Hi & -> & -> & ->). exists i. split; [reflexivity|].
    apply list_elem_of_In, elem_of_seqZ. lia.
Qed.

Lemma length_board_pass (bs : uvec2.t) (k : KeyLocations) :
  length (board_pass bs k)
  = Z.to_nat (U32.mul (uvec2.x bs) (uvec2.y bs)).
Proof. unfold board_pass. rewrite length_map. apply length_seqZ. Qed.


Lemma in_pass_cells (bs : uvec2.t) (k : KeyLocations) (x y : Z) :
  In (x, y) (map fst (board_pass bs k)) <->
  exists i, 0 <= i < U32.mul (uvec2.x bs) (uvec2.y bs) /\
    x = i / uvec2.x bs /\ y = i mod uvec2.y bs.
Proof.
  rewrite in_map_iff. split.
  - intros ([[x' y'] b] & Heq & Hin). simpl in Heq. injection Heq as -> ->.
    apply in_board_pass in Hin. destruct Hin as (i & Hi & Hx & Hy & _).
    eauto.
  - intros (i & Hi & Hx & Hy).
    exists (x, y, on_edge bs x y && not_occupied k x y). split; [reflexivity|].
    apply in_board_pass. eauto.
Qed.

(** On a square board no cell is visited twice. *)
Lemma NoDup_pass_cells_square (w : Z) (k : KeyLocations) :
  1 <= w -> List.NoDup (map fst (board_pass (uvec2.mk w w) k)).
Proof.
  intros Hw. apply NoDup_ListNoDup. unfold board_pass.
  cbn [uvec2.x uvec2.y]. rewrite map_map. cbn [fst].
  apply (NoDup_fmap_2_strong (fun i => (i / w, i mod w))); [|apply NoDup_seqZ].
  intros i j _ _ Heq. injection Heq as Hd Hm.
  rewrite (Z.div_mod i w), (Z.div_mod j w) by lia. congruence.
Qed.

Lemma square_cells (w x y : Z) :
  1 <= w ->
  (exists i, 0 <= i < w * w /\ x = i / w /\ y = i mod w) <->
  0 <= x < w /\ 0 <= y < w.
Proof.
  intros Hw. split.
  - intros (i & Hi & -> & ->). split.
    + split; [apply Z.div_pos; lia | apply Z.div_lt_upper_bound; lia].
    + apply Z.mod_pos_bound. lia.
  - intros [Hx Hy]. exists (x * w + y). split; [nia|]. split.
    + apply Z.div_unique with (r := y); lia.
    + apply Z.mod_unique with (q := x); lia.
Qed.





(** ** Counters *)

Lemma generate_level_square_keys (a : bool) (w : Z) (edges : list EdgePtr)
    (k0 : KeyLocations) (rs : rand_source) :
  3 <= w <= 65536 -> Permutation edges declared_edges -> rand_ok rs ->
  exists k, generate_level a (uvec2.mk w w) edges k0 rs = Done k /\
            keys_on_edges w k.
Proof.
  intros Hw Hperm Hrs.
  destruct (LevelFacts.declared_edges_perm edges Hperm) as (Hnd & Hlen & _).
  destruct (LevelFacts.place_keys_square a w Hw 4 0 edges k0 rs)
    as (k & picks & Hrun & Hlp & Hndp & _ & Hcells & _);
    [exact Hnd | lia | lia | exact Hrs |].
  do 4 (destruct picks as [|? picks]; [discriminate|]).
  destruct picks; [|discriminate].
  destruct (Hcells 0%nat _ eq_refl) as (p0 & Hp0 & K0).
  destruct (Hcells 1%nat _ eq_refl) as (p1 & Hp1 & K1).
  destruct (Hcells 2%nat _ eq_refl) as (p2 & Hp2 & K2).
  destruct (Hcells 3%nat _ eq_refl) as (p3 & Hp3 & K3).
  cbn [key_at Nat.add] in K0, K1, K2, K3.
  exists k. split; [exact Hrun|].
  exists e, e0, e1, e2, p0, p1, p2, p3.
  repeat split; try assumption; lia.
Qed.

Lemma cell_xy_inj (w : Z) (e e' : EdgePtr) (p q : Z) :
  3 <= w -> 1 <= p <= w - 2 -> 1 <= q <= w - 2 ->
  cell_xy (cell w e p) = cell_xy (cell w e' q) -> e = e'.
Proof.
  intros Hw Hp Hq. unfold cell_xy.
  destruct e, e'; cbn [cell uvec3.x uvec3.y]; intros H;
    try reflexivity; inversion H; lia.
Qed.

Lemma in_ring_cells (w x y : Z) :
  2 <= w ->
  In (x, y) (ring_cells w) <->
  0 <= x < w /\ 0 <= y < w /\ (x = 0 \/ x = w - 1 \/ y = 0 \/ y = w - 1).
Proof.
  intros Hw. unfold ring_cells. rewrite !in_app_iff, !in_map_iff.
  split.
  - intros [(i & [= <- <-] & Hi)|[(i & [= <- <-] & Hi)|
            [(i & [= <- <-] & Hi)|(i & [= <- <-] & Hi)]]];
      apply list_elem_of_In, elem_of_seqZ in Hi; lia.
  - intros (Hx & Hy & Hring).
    destruct (Z.eq_dec x 0) as [->|Hx0];
      [left; exists y; split; [reflexivity|];
       apply list_elem_of_In, elem_of_seqZ; lia|].
    destruct (Z.eq_dec x (w - 1)) as [->|Hx1];
      [right; left; exists y; split; [reflexivity|];
       apply list_elem_of_In, elem_of_seqZ; lia|].
    destruct (Z.eq_dec y 0) as [->|Hy0];
      [right; right; left; exists x; split; [reflexivity|];
       apply list_elem_of_In, elem_of_seqZ; lia|].
    right; right; right. exists x. split; [f_equal; lia|].
    apply list_elem_of_In, elem_of_seqZ; lia.
Qed.

Lemma NoDup_ring_cells (w : Z) : 2 <= w -> List.NoDup (ring_cells w).
Proof.
  intros Hw. unfold ring_cells.
  assert (Hmap : forall (f : Z -> Z * Z) m n,
            (forall i j, f i = f j -> i = j) ->
            List.NoDup (map f (seqZ m n))).
  { intros f m n Hinj. apply Finite.Injective_map_NoDup; [exact Hinj|].
    apply NoDup_ListNoDup, NoDup_seqZ. }
  repeat apply List.NoDup_app;
    try (apply Hmap; intros i j [= ?]; assumption);
    intros [x y]; rewrite ?in_app_iff, !in_map_iff;
    intros (i & [= <- <-] & Hi);
    apply list_elem_of_In, elem_of_seqZ in Hi;
    intros H;
    repeat match type of H with
           | _ \/ _ => destruct H as [H|H]
           end;
    destruct H as (j & [= ? ?] & Hj);
    apply list_elem_of_In, elem_of_seqZ in Hj; lia.
Qed.

Lemma length_ring_cells (w : Z) :
  2 <= w -> length (ring_cells w) = Z.to_nat (4 * w - 4).
Proof.
  intros Hw. unfold ring_cells.
  rewrite !length_app, !length_map, !length_seqZ. lia.
Qed.


Lemma counter_cells_filter (bs : uvec2.t) (k : KeyLocations) :
  counter_cells (board_pass bs k)
  = List.filter (fun c => on_edge bs (fst c) (snd c)
                          && not_occupied k (fst c) (snd c))
                (map fst (board_pass bs k)).
Proof.
  unfold counter_cells, board_pass.
  induction (seqZ 0 (U32.mul (uvec2.x bs) (uvec2.y bs))) as [|i l IH];
    [reflexivity|].
  cbn [map List.filter fst snd].
  destruct (on_edge bs (i / uvec2.x bs) (i mod uvec2.y bs)
            && not_occupied k (i / uvec2.x bs) (i mod uvec2.y bs));
    cbn [map fst]; rewrite IH; reflexivity.
Qed.

Lemma on_edge_square (w x y : Z) :
  1 <= w <= 2 ^ 32 ->
  on_edge (uvec2.mk w w) x y = true <->
  x = 0 \/ x = w - 1 \/ y = 0 \/ y = w - 1.
Proof.
  intros Hw. unfold on_edge. cbn [uvec2.x uvec2.y].
  replace (U32.sub w 1) with (w - 1)
    by (symmetry; apply LevelFacts.wrap_small; lia).
  rewrite !orb_true_iff, !Z.eqb_eq. tauto.
Qed.

Lemma uvec3_neqb_false (a b : uvec3.t) : uvec3_neqb a b = false <-> a = b.
Proof.
  unfold uvec3_neqb. rewrite negb_false_iff, !andb_true_iff, !Z.eqb_eq.
  destruct a, b; cbn [uvec3.x uvec3.y uvec3.z]. split.
  - intros [[-> ->] ->]. reflexivity.
  - intros [= -> -> ->]. tauto.
Qed.

(** [not_occupied] fails exactly on the locations of the four keys. *)
Lemma not_occupied_false (k : KeyLocations) (x y : Z) :
  not_occupied k x y = false <->
  In (uvec3.mk x y 0) [peanut k; bread k; jelly k; serve k].
Proof.
  unfold not_occupied. cbn [In].
  rewrite !andb_false_iff, !uvec3_neqb_false. intuition congruence.
Qed.

Lemma cell_z (w : Z) (e : EdgePtr) (p : Z) : uvec3.z (cell w e p) = 0.
Proof. destruct e; reflexivity. Qed.

Lemma not_occupied_key_cells (w : Z) (k : KeyLocations) (x y : Z) :
  keys_on_edges w k ->
  not_occupied k x y = false <-> In (x, y) (key_cells k).
Proof.
  intros (e0 & e1 & e2 & e3 & p0 & p1 & p2 & p3 & _ & _ & _ & _ & _
          & K0 & K1 & K2 & K3).
  rewrite not_occupied_false. unfold key_cells. cbn [In map].
  assert (Hz : forall l e p, l = cell w e p ->
            (l = uvec3.mk x y 0 <-> cell_xy l = (x, y))).
  { intros l e p ->. pose proof (cell_z w e p) as Hz.
    destruct (cell w e p) as [cx cy cz]. unfold cell_xy.
    cbn [uvec3.x uvec3.y uvec3.z] in *. subst cz.
    split; intros H; inversion H; reflexivity. }
  rewrite <- (Hz _ _ _ K0), <- (Hz _ _ _ K1), <- (Hz _ _ _ K2),
    <- (Hz _ _ _ K3). intuition congruence.
Qed.

Lemma NoDup_key_cells (w : Z) (k : KeyLocations) :
  3 <= w -> keys_on_edges w k -> List.NoDup (key_cells k).
Proof.
  intros Hw (e0 & e1 & e2 & e3 & p0 & p1 & p2 & p3 & Hnd & Hp0 & Hp1 & Hp2
             & Hp3 & K0 & K1 & K2 & K3).
  unfold key_cells. cbn [map]. rewrite K0, K1, K2, K3.
  assert (Hne : forall e e' p q, 1 <= p <= w - 2 -> 1 <= q <= w - 2 ->
            e <> e' -> cell_xy (cell w e p) <> cell_xy (cell w e' q)).
  { intros e e' p q Hp Hq Hee Heq. apply Hee.
    exact (cell_xy_inj w e e' p q Hw Hp Hq Heq). }
  inversion_clear Hnd as [|? ? N0 Hnd1]. inversion_clear Hnd1 as [|? ? N1 Hnd2].
  inversion_clear Hnd2 as [|? ? N2 _]. cbn [In] in N0, N1, N2.
  repeat constructor; cbn [In]; intros H;
    repeat match type of H with
           | _ \/ _ => destruct H as [H|H]
           | False => exact H
           end;
    (eapply Hne in H; [exact H | lia | lia | intuition congruence]).
Qed.

Lemma key_cells_on_ring (w : Z) (k : KeyLocations) (c : Z * Z) :
  3 <= w -> keys_on_edges w k -> In c (key_cells k) -> In c (ring_cells w).
Proof.
  intros Hw (e0 & e1 & e2 & e3 & p0 & p1 & p2 & p3 & _ & Hp0 & Hp1 & Hp2
             & Hp3 & K0 & K1 & K2 & K3).
  unfold key_cells. cbn [map In]. rewrite K0, K1, K2, K3.
  destruct c as [x y]. rewrite in_ring_cells by lia.
  assert (Hcell : forall e p, 1 <= p <= w - 2 -> cell_xy (cell w e p) = (x, y) ->
            0 <= x < w /\ 0 <= y < w /\
            (x = 0 \/ x = w - 1 \/ y = 0 \/ y = w - 1)).
  { intros e p Hp. destruct e; unfold cell_xy; cbn [cell uvec3.x uvec3.y];
      intros [= <- <-]; lia. }
  intros [H|[H|[H|[H|[]]]]];
    [exact (Hcell _ _ Hp0 H) | exact (Hcell _ _ Hp1 H)
    | exact (Hcell _ _ Hp2 H) | exact (Hcell _ _ Hp3 H)].
Qed.

(** On a generated square level the counters and the keys fill the outer
    ring: every ring cell holds one of them, and only one. *)
Lemma counters_fill_ring (w : Z) (k : KeyLocations) :
  3 <= w <= 65535 -> keys_on_edges w k ->
  Permutation (counter_cells (board_pass (uvec2.mk w w) k) ++ key_cells k)
              (ring_cells w).
Proof.
  intros Hw Hk.
  assert (Hmul : U32.mul w w = w * w).
  { apply LevelFacts.wrap_small. nia. }
  assert (Hin : forall x y,
            In (x, y) (counter_cells (board_pass (uvec2.mk w w) k)) <->
            In (x, y) (ring_cells w) /\ ~ In (x, y) (key_cells k)).
  { intros x y. rewrite counter_cells_filter, filter_In. cbn [fst snd].
    rewrite in_pass_cells, in_ring_cells by lia. cbn [uvec2.x uvec2.y].
    rewrite Hmul, square_cells by lia.
    rewrite andb_true_iff, on_edge_square by lia.
    rewrite <- (not_occupied_key_cells w k x y Hk).
    destruct (not_occupied k x y); intuition congruence. }
  apply Permutation.NoDup_Permutation.
  - apply List.NoDup_app.
    + rewrite counter_cells_filter. apply List.NoDup_filter.
      apply NoDup_pass_cells_square. lia.
    + apply (NoDup_key_cells w); [lia | exact Hk].
    + intros [x y] HC HK. apply Hin in HC. tauto.
  - apply NoDup_ring_cells. lia.
  - intros [x y]. rewrite in_app_iff, Hin. split.
    + intros [[H _]|H]; [exact H|].
      apply (key_cells_on_ring w k); [lia | exact Hk | exact H].
    + intros H. destruct (not_occupied k x y) eqn:E.
      * left. split; [exact H|]. rewrite <- (not_occupied_key_cells w k x y Hk).
        congruence.
      * right. apply (not_occupied_key_cells w k x y Hk). exact E.
Qed.

Lemma length_flat_map_draw_cell (meshes : Catalog.Meshes)
    (pass : list (Z * Z * bool)) :
  length (flat_map (draw_cell meshes) pass)
  = (length pass + length (counter_cells pass))%nat.
Proof.
  unfold counter_cells. induction pass as [|[[x y] b] pass IH]; [reflexivity|].
  cbn [flat_map draw_cell List.filter snd]. rewrite length_app.
  destruct b; cbn [length map]; rewrite IH; lia.
Qed.

(** On a square board of side 3 to 65535, after [generate_level], the
    counters that [draw] puts down and the four keys fill the outer ring
    of the board, one object to a cell: there are [4 w - 8] counters, and
    a frame makes [w * w + 4 w - 3] draw calls. *)
Theorem draw_counters_fill_ring
    (a : bool) (w : Z) (edges : list EdgePtr) (k0 : KeyLocations)
    (rs : rand_source) :
  3 <= w <= 65535 -> Permutation edges declared_edges -> rand_ok rs ->
  exists k,
    generate_level a (uvec2.mk w w) edges k0 rs = Done k /\
    let counters := counter_cells (board_pass (uvec2.mk w w) k) in
    Permutation (counters ++ key_cells k) (ring_cells w) /\
    length counters = Z.to_nat (4 * w - 8) /\
    forall meshes g, board_size g = uvec2.mk w w ->
      length (draw meshes k g) = Z.to_nat (w * w + 4 * w - 3).
Proof.
  intros Hw Hperm Hrs.
  destruct (generate_level_square_keys a w edges k0 rs) as (k & Hrun & Hk);
    [lia | exact Hperm | exact Hrs |].
  exists k. split; [exact Hrun|]. intros counters.
  pose proof (counters_fill_ring w k Hw Hk) as Hfill.
  assert (Hlen : length counters = Z.to_nat (4 * w - 8)).
  { apply Permutation_length in Hfill.
    rewrite length_app, length_ring_cells in Hfill by lia.
    unfold key_cells in Hfill. cbn [map length] in Hfill.
    fold counters in Hfill. lia. }
  split; [exact Hfill|]. split; [exact Hlen|].
  intros meshes g Hg. unfold draw. rewrite Hg, length_app.
  rewrite length_flat_map_draw_cell. fold counters. rewrite Hlen.
  rewrite length_board_pass. cbn [uvec2.x uvec2.y length].
  replace (U32.mul w w) with (w * w)
    by (symmetry; apply LevelFacts.wrap_small; nia).
  nia.
Qed.


Lemma draw_counters_fill_ring_witness :
  exists k,
    generate_level true (uvec2.mk 6 6) declared_edges no_keys rand_zero
    = Done k /\
    let counters := counter_cells (board_pass (uvec2.mk 6 6) k) in
    Permutation (counters ++ key_cells k) (ring_cells 6) /\
    length counters = Z.to_nat (4 * 6 - 8) /\
    forall meshes g, board_size g = uvec2.mk 6 6 ->
      length (draw meshes k g) = Z.to_nat (6 * 6 + 4 * 6 - 3).
Proof.
  apply (draw_counters_fill_ring true 6 declared_edges no_keys rand_zero).
  - lia.
  - reflexivity.
  - intros n. unfold rand_zero. lia.
Defined.


(** ** The vertex ranges that a frame draws *)

Import Catalog.

Lemma loaded_mesh_in_buffer (names : list ascii) (vertices_size : Z)
    (index_entries : list IndexEntry) (index : gmap string Mesh)
    (n : string) (m : Mesh) :
  Forall u32_entry index_entries ->
  load_index names vertices_size index_entries = inr index ->
  index !! n = Some m ->
  0 <= first m /\ 0 <= count m /\ first m + count m <= vertices_size.
Proof.
  intros Hu32 Hrun Hn. unfold load_index in Hrun.
  apply CatalogFacts.add_entries_inr in Hrun.
  destruct Hrun as (Hall & _ & _ & _ & _ & Hfrom).
  destruct (Hfrom n m Hn) as [H0|(e & Hin & _ & ->)].
  { rewrite lookup_empty in H0. discriminate. }
  rewrite List.Forall_forall in Hall, Hu32.
  assert (Hok := Hall e Hin). unfold out_of_range in Hok.
  assert (Hle : vertex_begin e <= vertex_end e) by lia.
  rewrite (CatalogFacts.entry_mesh_count e (Hu32 e Hin) Hle).
  cbn [entry_mesh first].
  destruct (Hu32 e Hin) as (_ & _ & [Hb _] & _). lia.
Qed.

(** The meshes of a frame are among the seven members. *)
Lemma drawn_mesh_member (meshes : Meshes) (k : KeyLocations) (g : Game)
    (c : DrawCall) :
  In c (draw meshes k g) ->
  In (drawn_mesh c)
     [tile_mesh meshes; counter_mesh meshes; avatar_mesh meshes;
      peanut_mesh meshes; bread_mesh meshes; jelly_mesh meshes;
      serve_mesh meshes].
Proof.
  unfold draw. rewrite in_app_iff, in_flat_map.
  intros [([[x y] b] & _ & Hc)|Hc].
  - cbn [draw_cell] in Hc. destruct Hc as [<-|Hc]; [simpl; tauto|].
    destruct b; [|contradiction]. destruct Hc as [<-|[]]. simpl; tauto.
  - cbn [In] in Hc.
    repeat match type of Hc with
           | _ \/ _ => destruct Hc as [<-|Hc]; [simpl; tauto|]
           end.
    contradiction.
Qed.

(** With the meshes that the constructor loaded, every draw call of
    a frame reads a range of vertices that lies inside the vertex buffer. *)
Theorem draw_within_vertex_buffer
    (names : list ascii) (vertices_size : Z) (index_entries : list IndexEntry)
    (meshes : Meshes) (k : KeyLocations) (g : Game) :
  Forall u32_entry index_entries ->
  load_meshes names vertices_size index_entries = inr meshes ->
  Forall (fun c => 0 <= first (drawn_mesh c) /\
                   0 <= count (drawn_mesh c) /\
                   first (drawn_mesh c) + count (drawn_mesh c)
                   <= vertices_size)
         (draw meshes k g).
Proof.
  intros Hu32 Hload. unfold load_meshes in Hload.
  destruct (load_index names vertices_size index_entries) as [err|index]
    eqn:Hindex; [discriminate|].
  cbn [bind] in Hload. unfold lookup in Hload.
  repeat match type of Hload with
         | context [index !! ?n] =>
             let E := fresh "E" in
             destruct (index !! n) eqn:E; cbn [bind] in Hload;
             [apply (loaded_mesh_in_buffer _ _ _ _ _ _ Hu32 Hindex) in E
             | discriminate]
         end.
  injection Hload as <-.
  apply List.Forall_forall. intros c Hc.
  apply drawn_mesh_member in Hc.
  cbn [In tile_mesh counter_mesh avatar_mesh peanut_mesh bread_mesh
       jelly_mesh serve_mesh] in Hc.
  repeat match type of Hc with
         | _ \/ _ => destruct Hc as [<-|Hc]; [assumption|]
         end.
  contradiction.
Qed.

Lemma draw_within_vertex_buffer_witness :
  Forall (fun c => 0 <= first (drawn_mesh c) /\
                   0 <= count (drawn_mesh c) /\
                   first (drawn_mesh c) + count (drawn_mesh c) <= 21)
         (draw packed_meshes no_keys (at_rest five F32.one)).
Proof.
  apply (draw_within_vertex_buffer packed_names 21 packed_index).
  - repeat constructor; unfold U32.in_range, U32.modulus; simpl; lia.
  - reflexivity.
Defined.

End DrawFacts.

(** ** The events of a frame *)

Module EventFacts.

(** Case analysis on the scancode of an event against the four bound
    keys, then on the direction. *)
Ltac by_scancode evt d :=
  unfold SDL_SCANCODE_W, SDL_SCANCODE_S, SDL_SCANCODE_A, SDL_SCANCODE_D;
  destruct (Z.eqb_spec (key_keysym_scancode evt) 26) as [->|?];
    [destruct d; reflexivity|];
  destruct (Z.eqb_spec (key_keysym_scancode evt) 22) as [->|?];
    [destruct d; reflexivity|];
  destruct (Z.eqb_spec (key_keysym_scancode evt) 4) as [->|?];
    [destruct d; reflexivity|];
  destruct (Z.eqb_spec (key_keysym_scancode evt) 7) as [->|?];
    [destruct d; reflexivity|];
  destruct d; cbn [scancode_of snd];
  unfold SDL_SCANCODE_W, SDL_SCANCODE_S, SDL_SCANCODE_A, SDL_SCANCODE_D;
  match goal with
  | |- context [key_keysym_scancode evt =? ?b] =>
      destruct (Z.eqb_spec (key_keysym_scancode evt) b); [lia|reflexivity]
  end.

(** One event: the flag of a direction takes the state of the key when
    the event acts on it, and keeps its value otherwise. *)
Lemma flag_handle_event (d : Direction) (c : Controls) (evt : SDL_Event) :
  flag d (snd (handle_event c evt))
  = if acts_on d evt then is_key_down evt else flag d c.
Proof.
  unfold handle_event, acts_on, is_key_down, SDL_KEYUP, SDL_KEYDOWN.
  destruct (Z.eqb_spec (type evt) 768) as [Ht|Ht].
  - rewrite Ht. cbn [Z.eqb Pos.eqb orb andb].
    destruct (key_repeat evt =? 0); cbn [negb andb orb];
      [by_scancode evt d | destruct d; reflexivity].
  - cbn [andb orb].
    destruct (Z.eqb_spec (type evt) 769) as [Hu|Hu];
      [by_scancode evt d | destruct d; reflexivity].
Qed.

Lemma handle_events_snoc (c : Controls) (evts : list SDL_Event)
    (evt : SDL_Event) :
  handle_events c (evts ++ [evt])
  = snd (handle_event (handle_events c evts) evt).
Proof. unfold handle_events. rewrite fold_left_app. reflexivity. Qed.

(** After the events of a frame, the flag of a direction is the state of
    its key at the last event that acted on it (a press that is not a
    repeat, or a release), and its old value when no event did. *)
Theorem handle_events_last_transition
    (d : Direction) (c : Controls) (evts : list SDL_Event) :
  flag d (handle_events c evts)
  = match last (List.filter (acts_on d) evts) with
    | Some evt => is_key_down evt
    | None => flag d c
    end.
Proof.
  induction evts as [|evt evts IH] using rev_ind; [reflexivity|].
  rewrite handle_events_snoc, flag_handle_event, List.filter_app.
  cbn [List.filter]. destruct (acts_on d evt).
  - rewrite last_snoc. reflexivity.
  - rewrite app_nil_r. exact IH.
Qed.

End EventFacts.

(** ** The sign of the velocity, and the idle avatar *)

Module SignFacts.
Import F32 F32Facts RoundingFacts.

(** Rounding keeps the sign it is given. *)
Lemma binary_round_aux_nonneg (m e : Z) (l : location) :
  0 <= m -> le zero (binary_round_aux 24 128 false m e l).
Proof.
  intros H. unfold binary_round_aux.
  pose proof (shr_fexp_nonneg m e l H) as H1.
  destruct (shr_fexp 24 128 m e l) as [mrs' e'] eqn:E1. cbn [fst] in H1.
  pose proof (shr_fexp_nonneg _ e' loc_Exact
                (round_nearest_even_nonneg _ (loc_of_shr_record mrs') H1)) as H2.
  destruct (shr_fexp 24 128 _ e' loc_Exact) as [mrs'' e''] eqn:E2.
  cbn [fst] in H2.
  destruct (shr_m mrs'') as [|p|p]; [reflexivity | | lia].
  destruct (e'' <=? 128 - 24); reflexivity.
Qed.

Lemma binary_round_aux_nonpos (m e : Z) (l : location) :
  0 <= m -> le (binary_round_aux 24 128 true m e l) zero.
Proof.
  intros H. unfold binary_round_aux.
  pose proof (shr_fexp_nonneg m e l H) as H1.
  destruct (shr_fexp 24 128 m e l) as [mrs' e'] eqn:E1. cbn [fst] in H1.
  pose proof (shr_fexp_nonneg _ e' loc_Exact
                (round_nearest_even_nonneg _ (loc_of_shr_record mrs') H1)) as H2.
  destruct (shr_fexp 24 128 _ e' loc_Exact) as [mrs'' e''] eqn:E2.
  cbn [fst] in H2.
  destruct (shr_m mrs'') as [|p|p]; [reflexivity | | lia].
  destruct (e'' <=? 128 - 24); reflexivity.
Qed.

Lemma binary_round_nonneg (m : positive) (e : Z) :
  le zero (binary_round 24 128 false m e).
Proof.
  unfold binary_round. destruct (shl_align m e _) as [mz ez].
  apply binary_round_aux_nonneg. lia.
Qed.

Lemma binary_round_nonpos (m : positive) (e : Z) :
  le (binary_round 24 128 true m e) zero.
Proof.
  unfold binary_round. destruct (shl_align m e _) as [mz ez].
  apply binary_round_aux_nonpos. lia.
Qed.

(** The sum of two numbers that are not negative is not negative. *)
Lemma add_nonneg (a b : t) : le zero a -> le zero b -> le zero (add a b).
Proof.
  unfold add, prec, emax.
  destruct a as [sa|sa| |sa ma ea], b as [sb|sb| |sb mb eb];
    try destruct sa; try destruct sb; intros Ha Hb;
    try discriminate; try reflexivity.
  cbn [SFadd cond_Zopp Z.add binary_normalize].
  apply binary_round_nonneg.
Qed.

(** A number that is not positive, less one that is not negative, is not
    positive. *)
Lemma sub_nonpos (a b : t) : le a zero -> le zero b -> le (sub a b) zero.
Proof.
  unfold sub, prec, emax.
  destruct a as [sa|sa| |sa ma ea], b as [sb|sb| |sb mb eb];
    try destruct sa; try destruct sb; intros Ha Hb;
    try discriminate; try reflexivity.
  cbn [SFsub cond_Zopp Z.sub Z.opp Z.add binary_normalize].
  apply binary_round_nonpos.
Qed.

(** Clamping to [[-m, m]] keeps the sign. *)
Lemma clamp_nonneg (v m : t) :
  le zero v -> le zero m -> le zero (glm_clamp v (opp m) m).
Proof.
  intros Hv Hm. unfold glm_clamp, glm_max, glm_min.
  replace (ltb v (opp m)) with false.
  - destruct (ltb m v); assumption.
  - destruct v as [sv|sv| |sv mv ev], m as [sm|sm| |sm mm em];
      try destruct sv; try destruct sm; try discriminate; reflexivity.
Qed.

Lemma clamp_nonpos (v m : t) :
  le v zero -> le zero m -> le (glm_clamp v (opp m) m) zero.
Proof.
  intros Hv Hm. unfold glm_clamp, glm_max, glm_min.
  assert (Hom : le (opp m) zero).
  { destruct m as [sm|sm| |sm mm em]; try destruct sm;
      try discriminate; reflexivity. }
  destruct (ltb v (opp m)).
  - replace (ltb m (opp m)) with false; [exact Hom|].
    destruct m as [sm|sm| |sm mm em]; try destruct sm;
      try discriminate; try reflexivity.
  - replace (ltb m v) with false; [exact Hv|].
    destruct v as [sv|sv| |sv mv ev], m as [sm|sm| |sm mm em];
      try destruct sv; try destruct sm; try discriminate; reflexivity.
Qed.

Lemma abs_le_finite (v m : t) :
  le (abs v) m -> is_finite m = true -> is_finite v = true.
Proof.
  destruct v as [sv|sv| |sv mv ev], m as [sm|sm| |sm mm em];
    try destruct sm; intros H Hm; try discriminate; reflexivity.
Qed.

(** A finite velocity contributes a zero to the height of [mv]. *)
Lemma height_of_displacement (a b : t) :
  is_finite a = true -> is_finite b = true ->
  exists s, add (mul a zero) (mul b zero) = S754_zero s.
Proof.
  destruct a as [sa|sa| |sa ma ea], b as [sb|sb| |sb mb eb];
    intros Ha Hb; try discriminate;
    try destruct sa; try destruct sb; eexists; reflexivity.
Qed.

Lemma add_zero_r (z : t) (s : bool) :
  add z (S754_zero s) = z \/
  (z = S754_zero true /\ add z (S754_zero s) = S754_zero false).
Proof.
  destruct z as [sz|sz| |sz mz ez]; try (left; reflexivity).
  destruct sz, s; (left; reflexivity) || (right; split; reflexivity).
Qed.

End SignFacts.

Module IdleFacts.
Import F32 F32Facts RoundingFacts SignFacts MotionFacts.

(** When no key is held, [update] stops the avatar where it is: both
    velocities become zero at once whatever they were, and neither the
    position nor the facing changes. *)
Theorem update_idle_stops (g : Game) (elapsed : t) :
  controls g = no_direction -> le zero (max_velocity g) ->
  x_velocity (update g elapsed) = zero /\
  y_velocity (update g elapsed) = zero /\
  avatar_location (update g elapsed) = avatar_location g /\
  avatar_rotation (update g elapsed) = avatar_rotation g.
Proof.
  intros Hc Hm.
  assert (Hstop : stop_idle_axes (accelerate elapsed g)
                  = set_motion zero zero (avatar_rotation g) g).
  { unfold accelerate, stop_idle_axes.
    cbn [set_motion controls x_velocity y_velocity avatar_rotation].
    rewrite Hc. reflexivity. }
  unfold update. rewrite Hstop. unfold clamp_velocity.
  cbn [set_motion max_velocity x_velocity y_velocity avatar_rotation].
  rewrite glm_clamp_zero by exact Hm.
  unfold move, displacement. cbn [x_velocity y_velocity].
  replace (vec3.neqb _ _) with false by reflexivity.
  cbn [x_velocity y_velocity avatar_location avatar_rotation].
  repeat split; reflexivity.
Qed.

Lemma update_idle_stops_witness :
  let g := set_motion five five (quat_euler_z 90) (at_rest five one) in
  x_velocity (update g tenth) = zero /\
  y_velocity (update g tenth) = zero /\
  avatar_location (update g tenth) = avatar_location g /\
  avatar_rotation (update g tenth) = avatar_rotation g.
Proof.
  apply (update_idle_stops
           (set_motion five five (quat_euler_z 90) (at_rest five one)) tenth);
    reflexivity.
Defined.

(** The velocity never points against the one key that is held on an
    axis. *)
Theorem velocity_follows_key (g : Game) (elapsed : t) :
  le zero (max_velocity g) -> le zero (mul elapsed (acceleration g)) ->
  (go_right (controls g) = true -> go_left (controls g) = false ->
   le zero (x_velocity g) -> le zero (x_velocity (update g elapsed))) /\
  (go_left (controls g) = true -> go_right (controls g) = false ->
   le (x_velocity g) zero -> le (x_velocity (update g elapsed)) zero) /\
  (go_up (controls g) = true -> go_down (controls g) = false ->
   le zero (y_velocity g) -> le zero (y_velocity (update g elapsed))) /\
  (go_down (controls g) = true -> go_up (controls g) = false ->
   le (y_velocity g) zero -> le (y_velocity (update g elapsed)) zero).
Proof.
  intros Hm Hd.
  destruct (update_velocity g elapsed) as [Hx Hy]. rewrite Hx, Hy.
  unfold stop_idle_axes, accelerate.
  cbn [set_motion controls x_velocity y_velocity].
  repeat split; intros H1 H2 Hv; rewrite H1, H2; cbn [negb andb].
  - apply clamp_nonneg; [apply add_nonneg|]; assumption.
  - apply clamp_nonpos; [apply sub_nonpos|]; assumption.
  - apply clamp_nonneg; [apply add_nonneg|]; assumption.
  - apply clamp_nonpos; [apply sub_nonpos|]; assumption.
Qed.


Lemma velocity_follows_key_witness :
  let g := set_controls only_right (at_rest five one) in
  (go_right (controls g) = true -> go_left (controls g) = false ->
   le zero (x_velocity g) -> le zero (x_velocity (update g tenth))) /\
  (go_left (controls g) = true -> go_right (controls g) = false ->
   le (x_velocity g) zero -> le (x_velocity (update g tenth)) zero) /\
  (go_up (controls g) = true -> go_down (controls g) = false ->
   le zero (y_velocity g) -> le zero (y_velocity (update g tenth))) /\
  (go_down (controls g) = true -> go_up (controls g) = false ->
   le (y_velocity g) zero -> le (y_velocity (update g tenth)) zero).
Proof.
  apply (velocity_follows_key (set_controls only_right (at_rest five one))
           tenth); reflexivity.
Defined.

(** The avatar stays at its height: with a finite [max_velocity], [update]
    adds a zero to [avatar_location.z], which leaves it as it is, but for
    a negative zero that may become the positive one. *)
Theorem update_keeps_height (g : Game) (elapsed : t) :
  le zero (max_velocity g) -> is_finite (max_velocity g) = true ->
  is_nan (x_velocity g) = false -> is_nan (y_velocity g) = false ->
  is_finite (mul elapsed (acceleration g)) = true ->
  let z := vec3.z (avatar_location g) in
  let z' := vec3.z (avatar_location (update g elapsed)) in
  z' = z \/ (z = S754_zero true /\ z' = S754_zero false).
Proof.
  intros Hm Hfin Hx Hy Hd z z'.
  set (g' := stop_idle_axes (accelerate elapsed g)).
  destruct (accelerate_not_nan elapsed g Hx Hy Hd) as [Hx1 Hy1].
  destruct (stop_idle_axes_not_nan _ Hx1 Hy1) as [Hx2 Hy2]. fold g' in Hx2, Hy2.
  assert (Hfx : is_finite (x_velocity (clamp_velocity g')) = true).
  { apply (abs_le_finite _ (max_velocity g)); [|exact Hfin].
    apply clamp_abs_le; assumption. }
  assert (Hfy : is_finite (y_velocity (clamp_velocity g')) = true).
  { apply (abs_le_finite _ (max_velocity g)); [|exact Hfin].
    apply clamp_abs_le; assumption. }
  subst z z'. unfold update. fold g'. unfold move.
  destruct (vec3.neqb _ _); [|left; reflexivity].
  cbn [set_avatar_location avatar_location vec3.z vec3.add displacement
       vec3.scale].
  destruct (height_of_displacement _ _ Hfx Hfy) as [s ->].
  apply add_zero_r.
Qed.

Lemma update_keeps_height_witness :
  let g := set_controls only_right (at_rest five one) in
  let z := vec3.z (avatar_location g) in
  let z' := vec3.z (avatar_location (update g tenth)) in
  z' = z \/ (z = S754_zero true /\ z' = S754_zero false).
Proof.
  apply (update_keeps_height (set_controls only_right (at_rest five one))
           tenth); reflexivity.
Defined.

End IdleFacts.

(** ** One axis at a time *)

Module AxisFacts.
Import F32 F32Facts RoundingFacts MotionFacts.

(** Two numbers that compare equal are the same, or are two zeros. *)
Lemma compare_eq_inv (a b : t) :
  SFcompare a b = Some Eq ->
  a = b \/ exists s s', a = S754_zero s /\ b = S754_zero s'.
Proof.
  destruct a as [sa|sa| |sa ma ea], b as [sb|sb| |sb mb eb]; cbn;
    try destruct sa; try destruct sb; intros H; try discriminate;
    try (left; reflexivity); try (right; eauto; fail).
  - destruct (Z.compare_spec ea eb) as [->| |]; try discriminate.
    injection H as H. apply CompOpp_iff in H. cbn in H.
    apply Pos.compare_eq in H. subst. left. reflexivity.
  - destruct (Z.compare_spec ea eb) as [->| |]; try discriminate.
    injection H as H. apply Pos.compare_eq in H. subst. left. reflexivity.
Qed.

(** A coordinate inside the bounds goes through the two clamps of [move]
    unchanged. *)
Lemma clamp_position_fixed (y lim : t) :
  le one y -> le y lim -> std_min lim (std_max one y) = y.
Proof.
  unfold le, leb, SFleb, std_min, std_max, ltb, SFltb. intros H1 H2.
  assert (Hmax : (if match SFcompare one y with Some Lt => true | _ => false end
                  then y else one) = y).
  { destruct (SFcompare one y) as [[| |]|] eqn:C; try discriminate;
      [|reflexivity].
    apply compare_eq_inv in C. destruct C as [C|(s & s' & C & _)];
      [exact C | rewrite one_eq in C; discriminate]. }
  rewrite Hmax.
  destruct (SFcompare y lim) as [[| |]|] eqn:C; try discriminate;
    [|reflexivity].
  apply compare_eq_inv in C. destruct C as [C|(s & s' & C & _)];
    [symmetry; exact C|].
  subst y. rewrite one_eq in H1. discriminate.
Qed.


Lemma add_zero_ge_one (y : t) (s : bool) :
  le one y -> add y (S754_zero s) = y.
Proof.
  rewrite one_eq. destruct y as [sy|sy| |sy my ey]; intros H;
    try discriminate; reflexivity.
Qed.

Lemma mul_finite_zero (v : t) :
  is_finite v = true -> exists s, mul v zero = S754_zero s.
Proof.
  destruct v as [sv|sv| |sv mv ev]; intros H; try discriminate;
    eexists; reflexivity.
Qed.

Lemma clamped_velocity_finite (v m : t) :
  is_nan v = false -> le zero m -> is_finite m = true ->
  is_finite (glm_clamp v (opp m) m) = true.
Proof.
  intros Hv Hm Hfin. apply (SignFacts.abs_le_finite _ m); [|exact Hfin].
  apply clamp_abs_le; assumption.
Qed.

(** Motion along one axis leaves the other coordinate as it is: with no
    key of an axis held and the avatar inside its bounds, [update]
    returns that coordinate unchanged. *)
Theorem update_other_axis_fixed (g : Game) (elapsed : t) :
  avatar_inside g ->
  le zero (max_velocity g) -> is_finite (max_velocity g) = true ->
  is_nan (x_velocity g) = false -> is_nan (y_velocity g) = false ->
  is_finite (mul elapsed (acceleration g)) = true ->
  (go_up (controls g) = false -> go_down (controls g) = false ->
   vec3.y (avatar_location (update g elapsed)) = vec3.y (avatar_location g)) /\
  (go_left (controls g) = false -> go_right (controls g) = false ->
   vec3.x (avatar_location (update g elapsed)) = vec3.x (avatar_location g)).
Proof.
  intros (Hx1 & Hx2 & Hy1 & Hy2) Hm Hfin Hxv Hyv Hd.
  set (g' := stop_idle_axes (accelerate elapsed g)).
  destruct (accelerate_not_nan elapsed g Hxv Hyv Hd) as [Hxa Hya].
  destruct (stop_idle_axes_not_nan _ Hxa Hya) as [Hxs Hys].
  fold g' in Hxs, Hys.
  pose proof (clamped_velocity_finite _ _ Hxs Hm Hfin) as Hfx.
  pose proof (clamped_velocity_finite _ _ Hys Hm Hfin) as Hfy.
  split; intros K1 K2; unfold update; fold g'; unfold move;
    (destruct (vec3.neqb _ _); [|reflexivity]);
    cbn [set_avatar_location avatar_location vec3.x vec3.y vec3.add
         displacement vec3.scale clamp_velocity set_motion x_velocity
         y_velocity max_velocity];
    change (max_velocity g') with (max_velocity g);
    change (avatar_location g') with (avatar_location g);
    change (y_limit (clamp_velocity g')) with (y_limit g);
    change (x_limit (clamp_velocity g')) with (x_limit g).
  - assert (Hz : y_velocity g' = zero).
    { unfold g', stop_idle_axes, accelerate.
      cbn [set_motion controls y_velocity]. rewrite K1, K2. reflexivity. }
    rewrite Hz, glm_clamp_zero by exact Hm.
    destruct (mul_finite_zero _ Hfx) as [s ->].
    replace (add (S754_zero s) (mul zero one)) with (S754_zero false)
      by (destruct s; reflexivity).
    rewrite add_zero_ge_one by exact Hy1.
    apply clamp_position_fixed; assumption.
  - assert (Hz : x_velocity g' = zero).
    { unfold g', stop_idle_axes, accelerate.
      cbn [set_motion controls x_velocity]. rewrite K1, K2. reflexivity. }
    rewrite Hz, glm_clamp_zero by exact Hm.
    destruct (mul_finite_zero _ Hfy) as [s ->].
    replace (add (mul zero one) (S754_zero s)) with (S754_zero false)
      by (destruct s; reflexivity).
    rewrite add_zero_ge_one by exact Hx1.
    apply clamp_position_fixed; assumption.
Qed.

Lemma update_other_axis_fixed_witness :
  let g := set_controls only_right (at_rest five one) in
  (go_up (controls g) = false -> go_down (controls g) = false ->
   vec3.y (avatar_location (update g tenth)) = vec3.y (avatar_location g)) /\
  (go_left (controls g) = false -> go_right (controls g) = false ->
   vec3.x (avatar_location (update g tenth)) = vec3.x (avatar_location g)).
Proof.
  apply (update_other_axis_fixed
           (set_controls only_right (at_rest five one)) tenth);
    try reflexivity.
  repeat split; reflexivity.
Defined.

End AxisFacts.

(** ** The mesh index as a map *)

Module IndexFacts.
Import Catalog CatalogFacts.

Section Index.
Variable names : list ascii.
Variable vertices_size : Z.

Local Abbreviation name_of := (entry_name names).

(** The loop succeeds on entries that are in range and carry names that
    differ from one another and from those already in the map. *)
Lemma add_entries_succeeds :
  forall (es : list IndexEntry) (index0 : gmap string Mesh),
    Forall (fun e => ~ out_of_range names vertices_size e) es ->
    List.NoDup (map name_of es) ->
    (forall e, In e es -> index0 !! name_of e = None) ->
    exists index, add_entries names vertices_size es index0 = inr index.
Proof.
  induction es as [|e rest IH]; intros index0 Hall Hnd Hfresh.
  - eexists. reflexivity.
  - cbn [add_entries]. inversion_clear Hall as [|? ? Hok Hrest].
    cbn [map] in Hnd. apply List.NoDup_cons_iff in Hnd.
    destruct Hnd as [Hnotin Hnd].
    assert (Hadd : add_entry names vertices_size index0 e
                   = inr (<[name_of e := entry_mesh e]> index0)).
    { unfold add_entry. unfold out_of_range in Hok.
      destruct (name_begin e >? name_end e) eqn:E1; [lia|].
      destruct (name_end e >? Z.of_nat (length names)) eqn:E2; [lia|].
      destruct (vertex_begin e >? vertex_end e) eqn:E3; [lia|].
      destruct (vertex_end e >? vertices_size) eqn:E4; [lia|].
      cbn [orb]. rewrite (Hfresh e) by now left. reflexivity. }
    rewrite Hadd. apply IH; [exact Hrest | exact Hnd |].
    intros e' Hin. rewrite lookup_insert_ne.
    + apply Hfresh. now right.
    + intros Heq. apply Hnotin. rewrite Heq. apply in_map. exact Hin.
Qed.

Lemma add_entries_NoDup (es : list IndexEntry)
    (index0 index : gmap string Mesh) :
  add_entries names vertices_size es index0 = inr index ->
  List.NoDup (map name_of es).
Proof.
  intros Hrun. apply add_entries_inr in Hrun.
  destruct Hrun as (_ & _ & Huniq & _).
  apply NoDup_ListNoDup, NoDup_alt. intros i j n Hi Hj.
  change (map name_of es) with (name_of <$> es) in Hi, Hj.
  rewrite list_lookup_fmap in Hi, Hj.
  destruct (es !! i) as [e1|] eqn:E1; [|discriminate].
  destruct (es !! j) as [e2|] eqn:E2; [|discriminate].
  cbn in Hi, Hj. apply (Huniq i j e1 e2 E1 E2). congruence.
Qed.

(** A successful load adds one name to the map for each entry. *)
Lemma add_entries_size :
  forall (es : list IndexEntry) (index0 index : gmap string Mesh),
    add_entries names vertices_size es index0 = inr index ->
    size index = (size index0 + length es)%nat.
Proof.
  induction es as [|e rest IH]; intros index0 index Hrun.
  - injection Hrun as <-. cbn [length]. lia.
  - cbn [add_entries] in Hrun.
    destruct (add_entry names vertices_size index0 e) as [err|index1] eqn:Hadd;
      [discriminate|].
    apply add_entry_inr in Hadd. destruct Hadd as (_ & Hfresh & ->).
    rewrite (IH _ _ Hrun), map_size_insert_None by exact Hfresh.
    cbn [length]. lia.
Qed.

End Index.

(** The index does not depend on the order of the entries in the blob:
    a load that succeeds on a list of entries succeeds on every
    permutation of it, with the same map. *)
Theorem load_index_permutation
    (names : list ascii) (vertices_size : Z)
    (es es' : list IndexEntry) (index : gmap string Mesh) :
  Permutation es es' ->
  load_index names vertices_size es = inr index ->
  load_index names vertices_size es' = inr index.
Proof.
  intros Hperm Hrun. unfold load_index in *.
  pose proof (add_entries_NoDup names vertices_size es ∅ index Hrun) as Hnd.
  pose proof (add_entries_inr names vertices_size es ∅ index Hrun)
    as (Hall & _ & _ & Hfound & _ & Hfrom).
  destruct (add_entries_succeeds names vertices_size es' ∅) as [index' Hrun'].
  - rewrite List.Forall_forall in *. intros e He. apply Hall.
    apply (Permutation_in _ (Permutation_sym Hperm)). exact He.
  - apply (Permutation_NoDup (l := map (entry_name names) es));
      [apply Permutation_map; exact Hperm | exact Hnd].
  - intros e _. apply lookup_empty.
  - rewrite Hrun'. f_equal.
    pose proof (add_entries_inr names vertices_size es' ∅ index' Hrun')
      as (_ & _ & _ & Hfound' & _ & Hfrom').
    apply map_eq. intros n.
    destruct (index !! n) as [m|] eqn:L.
    + destruct (Hfrom n m L) as [H0|(e & Hin & <- & ->)].
      { rewrite lookup_empty in H0. discriminate. }
      apply Hfound'. apply (Permutation_in _ Hperm). exact Hin.
    + destruct (index' !! n) as [m'|] eqn:L'; [|reflexivity].
      destruct (Hfrom' n m' L') as [H0|(e & Hin & <- & ->)].
      { rewrite lookup_empty in H0. discriminate. }
      rewrite (Hfound e) in L; [discriminate|].
      apply (Permutation_in _ (Permutation_sym Hperm)). exact Hin.
Qed.

Lemma load_index_permutation_witness :
  load_index packed_names 21 (rev packed_index)
  = inr (list_to_map
           [("Avatar"%string, packed_mesh 0); ("Peanut"%string, packed_mesh 3);
            ("Bread"%string, packed_mesh 6); ("Jelly"%string, packed_mesh 9);
            ("Counter"%string, packed_mesh 12);
            ("Serve"%string, packed_mesh 15);
            ("Tile"%string, packed_mesh 18)]).
Proof.
  apply (load_index_permutation packed_names 21 packed_index).
  - apply Permutation_rev.
  - reflexivity.
Defined.

(** A loaded index holds as many meshes as the blob has entries, and
    its names are the names of the entries. *)
Theorem load_index_size
    (names : list ascii) (vertices_size : Z)
    (es : list IndexEntry) (index : gmap string Mesh) :
  load_index names vertices_size es = inr index ->
  size index = length es /\
  forall n, is_Some (index !! n) <-> In n (map (entry_name names) es).
Proof.
  intros Hrun. unfold load_index in Hrun. split.
  - rewrite (add_entries_size _ _ _ _ _ Hrun), map_size_empty. reflexivity.
  - pose proof (add_entries_inr names vertices_size es ∅ index Hrun)
      as (_ & _ & _ & Hfound & _ & Hfrom).
    intros n. rewrite in_map_iff. split.
    + intros [m L]. destruct (Hfrom n m L) as [H0|(e & Hin & Hn & _)].
      { rewrite lookup_empty in H0. discriminate. }
      eauto.
    + intros (e & <- & Hin). rewrite (Hfound e Hin). eauto.
Qed.

Lemma load_index_size_witness :
  exists index,
    load_index packed_names 21 packed_index = inr index /\
    size index = length packed_index /\
    forall n, is_Some (index !! n)
              <-> In n (map (entry_name packed_names) packed_index).
Proof.
  eexists. split; [reflexivity|].
  apply (load_index_size packed_names 21 packed_index). reflexivity.
Defined.

End IndexFacts.

(** ** Runs of the level generator *)

Module LevelRunFacts.
Import LevelFacts.

(** The body of the loop does not read [key_locations]: two runs that
    differ in the locations they start from stop in the same way, or end
    with the same locations in the slots they wrote. *)
Lemma place_keys_overwrites (a : bool) (b : uvec2.t) :
  forall (count i : nat) (remaining : list EdgePtr) (k k' : KeyLocations)
         (rs : rand_source),
    (i + count <= 4)%nat ->
    (forall j, (j < i)%nat -> key_at j k = key_at j k') ->
    match place_keys a b count i remaining k rs,
          place_keys a b count i remaining k' rs with
    | Done r, Done r' =>
        forall j, (j < i + count)%nat -> key_at j r = key_at j r'
    | AssertionFailed, AssertionFailed => True
    | ArithmeticFault, ArithmeticFault => True
    | _, _ => False
    end.
Proof.
  induction count as [|count IH]; intros i remaining k k' rs Hi Hsame.
  - cbn [place_keys]. intros j Hj. apply Hsame. lia.
  - cbn [place_keys rand].
    destruct (Z.of_nat (length remaining) =? 0); [exact I|].
    destruct (remaining !! _) as [edge|]; [|exact I].
    destruct (place_on_edge a b (deref edge) (rs 1%nat)) as [l| |];
      [|exact I|exact I].
    specialize (IH (S i) (erase edge remaining) (store_key i l k)
                  (store_key i l k') (fun n => rs (S (S n)))).
    replace (i + S count)%nat with (S i + count)%nat by lia.
    apply IH; [lia|].
    intros j Hj. destruct (Nat.eq_dec j i) as [->|Hne].
    + rewrite !key_at_store_key by lia. reflexivity.
    + rewrite !key_at_store_key_ne by lia. apply Hsame. lia.
Qed.

(** [generate_level] writes all four key locations: what it returns does
    not depend on the locations held before the call. *)
Theorem generate_level_overwrites
    (a : bool) (b : uvec2.t) (edges : list EdgePtr)
    (k0 k0' : KeyLocations) (rs : rand_source) :
  generate_level a b edges k0 rs = generate_level a b edges k0' rs.
Proof.
  unfold generate_level.
  pose proof (place_keys_overwrites a b 4 0 edges k0 k0' rs) as H.
  destruct (place_keys a b 4 0 edges k0 rs) as [k| |],
           (place_keys a b 4 0 edges k0' rs) as [k'| |];
    try reflexivity;
    try (exfalso; apply H; [lia | intros j Hj; lia]).
  f_equal.
  assert (Hk : forall j, (j < 4)%nat -> key_at j k = key_at j k').
  { apply H; [lia | intros j Hj; lia]. }
  pose proof (Hk 0%nat ltac:(lia)) as H0. pose proof (Hk 1%nat ltac:(lia)) as H1.
  pose proof (Hk 2%nat ltac:(lia)) as H2. pose proof (Hk 3%nat ltac:(lia)) as H3.
  destruct k, k'. simpl in H0, H1, H2, H3. congruence.
Qed.

(** A placement that passes the assertion is the placement of the build
    without assertions. *)
Lemma place_on_edge_release (b : uvec2.t) (e : Edge) (r : Z) (l : uvec3.t) :
  place_on_edge true b e r = Done l -> place_on_edge false b e r = Done l.
Proof.
  unfold place_on_edge. cbn [andb].
  repeat match goal with
         | |- context [if ?c then _ else _] => destruct c
         end; congruence.
Qed.

Lemma place_keys_release (b : uvec2.t) :
  forall (count i : nat) (remaining : list EdgePtr) (k r : KeyLocations)
         (rs : rand_source),
    place_keys true b count i remaining k rs = Done r ->
    place_keys false b count i remaining k rs = Done r.
Proof.
  induction count as [|count IH]; intros i remaining k r rs; [exact id|].
  cbn [place_keys rand].
  destruct (Z.of_nat (length remaining) =? 0); [exact id|].
  destruct (remaining !! _) as [edge|]; [|exact id].
  destruct (place_on_edge true b (deref edge) (rs 1%nat)) as [l| |] eqn:Hpl;
    [|discriminate|discriminate].
  rewrite (place_on_edge_release _ _ _ _ Hpl). apply IH.
Qed.

(** With assertions compiled out, [generate_level] runs to its end on
    every board whose two sizes are at least 3, square or not, and it
    returns the locations of the build with assertions whenever that one
    runs to its end. *)
Theorem generate_level_release
    (w h : Z) (edges : list EdgePtr) (k0 : KeyLocations) (rs : rand_source) :
  3 <= w < 2 ^ 32 -> 3 <= h < 2 ^ 32 ->
  Permutation edges declared_edges -> rand_ok rs ->
  exists k,
    generate_level false (uvec2.mk w h) edges k0 rs = Done k /\
    forall k', generate_level true (uvec2.mk w h) edges k0 rs = Done k' ->
               k' = k.
Proof.
  intros Hw Hh Hperm Hrs.
  destruct (declared_edges_perm edges Hperm) as (Hnd & Hlen & _).
  unfold generate_level.
  pose proof (place_keys_no_fault false w h Hw Hh 4 0 edges k0 rs Hnd
                ltac:(lia) Hrs) as Hnf.
  pose proof (place_keys_ndebug (uvec2.mk w h) 4 0 edges k0 rs) as Hna.
  destruct (place_keys false (uvec2.mk w h) 4 0 edges k0 rs) as [k| |] eqn:Hrun;
    [|contradiction|contradiction].
  exists k. split; [reflexivity|].
  intros k' Hk'. apply place_keys_release in Hk'. congruence.
Qed.

Lemma generate_level_release_witness :
  exists k,
    generate_level false (uvec2.mk 4 3) declared_edges no_keys rand_zero
    = Done k /\
    forall k',
      generate_level true (uvec2.mk 4 3) declared_edges no_keys rand_zero
      = Done k' -> k' = k.
Proof.
  apply (generate_level_release 4 3 declared_edges no_keys rand_zero).
  - lia.
  - lia.
  - reflexivity.
  - intros n. unfold rand_zero. lia.
Defined.

(** The loop leaves the slots below its counter as they are. *)
Lemma place_keys_keeps (a : bool) (b : uvec2.t) :
  forall (count i : nat) (remaining : list EdgePtr) (k k' : KeyLocations)
         (rs : rand_source),
    place_keys a b count i remaining k rs = Done k' ->
    forall j, (j < i)%nat -> key_at j k' = key_at j k.
Proof.
  induction count as [|count IH]; intros i remaining k k' rs Hrun j Hj.
  - injection Hrun as <-. reflexivity.
  - cbn [place_keys rand] in Hrun.
    destruct (Z.of_nat (length remaining) =? 0); [discriminate|].
    destruct (remaining !! _) as [edge|]; [|discriminate].
    destruct (place_on_edge a b (deref edge) (rs 1%nat)) as [l| |];
      try discriminate.
    rewrite (IH _ _ _ _ _ Hrun j) by lia.
    apply key_at_store_key_ne. exact Hj.
Qed.

(** When the loop runs to its end over a set of [count] edges, every
    edge of the set gave one of the locations that the loop wrote. *)
Lemma place_keys_done_slot (a : bool) (b : uvec2.t) :
  forall (count i : nat) (remaining : list EdgePtr) (k k' : KeyLocations)
         (rs : rand_source),
    place_keys a b count i remaining k rs = Done k' ->
    List.NoDup remaining -> count = length remaining -> (i + count <= 4)%nat ->
    forall e, In e remaining ->
      exists j n, (i <= j < i + count)%nat /\
        place_on_edge a b (deref e) (rs n) = Done (key_at j k').
Proof.
  induction count as [|count IH];
    intros i remaining k k' rs Hrun Hnd Hlen Hi e He.
  - destruct remaining; [destruct He | discriminate].
  - cbn [place_keys rand] in Hrun.
    destruct (Z.of_nat (length remaining) =? 0); [discriminate|].
    destruct (remaining !! _) as [edge|] eqn:Hedge; [|discriminate].
    destruct (place_on_edge a b (deref edge) (rs 1%nat)) as [l| |] eqn:Hpl;
      try discriminate.
    assert (Hin : In edge remaining).
    { apply list_elem_of_In. eapply list_elem_of_lookup_2. exact Hedge. }
    destruct (EdgePtr_eqb edge e) eqn:E.
    + apply EdgePtr_eqb_eq in E. subst e. exists i, 1%nat.
      split; [lia|].
      rewrite (place_keys_keeps _ _ _ _ _ _ _ _ Hrun i) by lia.
      rewrite key_at_store_key by lia. exact Hpl.
    + destruct (IH _ _ _ _ _ Hrun) with (e := e) as (j & n & Hj & Hn).
      * apply NoDup_erase. exact Hnd.
      * pose proof (length_erase edge remaining Hnd Hin). lia.
      * lia.
      * apply in_erase. split; [exact He|]. intros ->.
        rewrite (proj2 (EdgePtr_eqb_eq edge edge) eq_refl) in E. discriminate.
      * exists j, (S (S n)). split; [lia | exact Hn].
Qed.

(** A placement that the assertion rejects is a location off the outer
    ring in the build without assertions. *)
Lemma place_on_edge_rejected (b : uvec2.t) (e : Edge) (r : Z) (l : uvec3.t) :
  place_on_edge true b e r = AssertionFailed ->
  place_on_edge false b e r = Done l ->
  on_edge b (uvec3.x l) (uvec3.y l) = false.
Proof.
  unfold place_on_edge. cbn [andb].
  destruct (U32.sub _ 2 =? 0); [discriminate|].
  destruct (uvec2.x b =? 0); [discriminate|].
  destruct (on_edge b _ _) eqn:E; cbn [negb]; [discriminate|].
  intros _ [= <-]. exact E.
Qed.

(** With assertions compiled out, on a board that is not square,
    [generate_level] runs to its end and leaves one of the four keys off
    the outer ring of the board. *)
Theorem generate_level_release_off_ring
    (w h : Z) (edges : list EdgePtr) (k0 : KeyLocations) (rs : rand_source) :
  3 <= w <= 65536 -> 3 <= h < 2 ^ 32 -> w <> h ->
  Permutation edges declared_edges -> rand_ok rs ->
  exists k j,
    generate_level false (uvec2.mk w h) edges k0 rs = Done k /\
    (j < 4)%nat /\
    on_edge (uvec2.mk w h) (uvec3.x (key_at j k)) (uvec3.y (key_at j k))
    = false.
Proof.
  intros Hw Hh Hne Hperm Hrs.
  destruct (declared_edges_perm edges Hperm) as (Hnd & Hlen & Hall).
  unfold generate_level.
  pose proof (place_keys_no_fault false w h ltac:(lia) Hh 4 0 edges k0 rs Hnd
                ltac:(lia) Hrs) as Hnf.
  pose proof (place_keys_ndebug (uvec2.mk w h) 4 0 edges k0 rs) as Hna.
  destruct (place_keys false (uvec2.mk w h) 4 0 edges k0 rs) as [k| |] eqn:Hrun;
    [|contradiction|contradiction].
  destruct (place_keys_done_slot false _ _ _ _ _ _ _ Hrun Hnd
              ltac:(lia) ltac:(lia) right (Hall right))
    as (j & n & Hj & Hpl).
  exists k, j. split; [reflexivity|]. split; [lia|].
  apply (place_on_edge_rejected _ (deref right) (rs n)); [|exact Hpl].
  apply place_on_right_edge_rectangle; try assumption. apply Hrs.
Qed.

Lemma generate_level_release_off_ring_witness :
  exists k j,
    generate_level false (uvec2.mk 4 3) declared_edges no_keys rand_zero
    = Done k /\
    (j < 4)%nat /\
    on_edge (uvec2.mk 4 3) (uvec3.x (key_at j k)) (uvec3.y (key_at j k))
    = false.
Proof.
  apply (generate_level_release_off_ring 4 3 declared_edges no_keys rand_zero).
  - lia.
  - lia.
  - lia.
  - reflexivity.
  - intros n. unfold rand_zero. lia.
Defined.

End LevelRunFacts.
